(** * oobabot: the streaming splitters of [ooba_client.py] and the template
    validation of [templates.py], embedded and verified.

    Python values are modelled as follows.
    - [str] is a list of characters; a character is a code point below 256.
    - [int] is [Z]; slicing follows Python's rules for negative and
      out-of-range bounds.
    - a generator is the list of the units it yields, paired with the state
      of the object once the generator is exhausted.  A loop that may spin
      forever takes a bound on its iterations and answers [None] when the
      bound is reached.
    - [time.perf_counter()] readings are integers (abstract time units); the
      batching loop is also given over any arithmetic of the clock, for the
      properties that must hold with rounded float sums. *)

From Stdlib Require Import ZArith Ascii String.
From stdpp Require Import base decidable option list gmap strings.

Local Open Scope Z_scope.

(** ** Python strings *)

Abbreviation str := (list ascii).

(** A string literal. *)
Definition lit (s : string) : str := list_ascii_of_string s.

Definition newline : ascii := ascii_of_nat 10.

Module Py.

(** [len(s)] *)
Definition len (s : str) : Z := Z.of_nat (length s).

(** [s[i:]]: a negative bound counts from the end, and every bound is
    clamped to the string. *)
Definition slice_from (s : str) (i : Z) : str :=
  let i' := if decide (i < 0) then Z.max 0 (len s + i) else i in
  drop (Z.to_nat i') s.

(** [s[:-1]] *)
Definition drop_last (s : str) : str := take (length s - 1)%nat s.

(** [s.endswith(suffix)] *)
Definition endswith (s suffix : str) : bool :=
  bool_decide (length suffix ≤ length s)%nat
  && bool_decide (drop (length s - length suffix)%nat s = suffix).

(** [c.isspace()] on the code points below 256. *)
Definition isspace (c : ascii) : bool :=
  let n := nat_of_ascii c in
  ((9 <=? n) && (n <=? 13) || (28 <=? n) && (n <=? 32)
   || (n =? 133) || (n =? 160))%nat.

Fixpoint lstrip (s : str) : str :=
  match s with
  | [] => []
  | c :: rest => if isspace c then lstrip rest else s
  end.

Definition rstrip (s : str) : str := reverse (lstrip (reverse s)).

(** [s.strip()] *)
Definition strip (s : str) : str := rstrip (lstrip s).

(** [bool(s)] *)
Definition truthy (s : str) : bool :=
  match s with [] => false | _ => true end.

(** ["".join(parts)] *)
Definition join (parts : list str) : str := concat parts.

End Py.

(** ** ooba_client.py *)

(** The fields of the abstract base class [MessageSplitter]. *)
Record MessageSplitter : Type := mkSplitter {
  printed_idx : Z;
  full_response : str
}.

(** [MessageSplitter.__init__] *)
Definition new_splitter : MessageSplitter :=
  {| printed_idx := 0; full_response := [] |}.

(** [MessageSplitter.END_OF_INPUT = ""] *)
Definition END_OF_INPUT : str := [].

(** What the splitters read off an [re.Match]: [match.group(1)] and
    [match.end()].  The pattern is taken to have a first group that takes
    part in every match. *)
Record Match : Type := mkMatch {
  group1 : str;
  match_end : Z
}.

(** A compiled pattern, seen through [pattern.match(window)]: anchored at the
    start of the window, [None] when there is no match. *)
Definition Pattern : Type := str → option Match.

(** [pysbd.utils.TextSpan] *)
Record TextSpan : Type := mkSpan {
  sent : str;
  start : Z;
  end_ : Z
}.

(** [pysbd.Segmenter(...).segment], with [char_span=True]. *)
Definition Segmenter : Type := str → list TextSpan.

(** The two concrete subclasses, each with the field its [__init__] adds. *)
Inductive Splitter : Type :=
  | RegexSplitter (pattern : Pattern)
  | SentenceSplitter (segmenter : Segmenter).

(** What an exhausted generator leaves behind: the units it yielded, in
    order, and the splitter's fields. *)
Definition Yielded : Type := list str * MessageSplitter.

Definition advance (self : MessageSplitter) (by_ : Z) : MessageSplitter :=
  {| printed_idx := printed_idx self + by_;
     full_response := full_response self |}.

Definition unseen_window (self : MessageSplitter) : str :=
  Py.slice_from (full_response self) (printed_idx self).

(** [RegexSplitter.partition]: the [while True] loop, at most [fuel] tests of
    the pattern. *)
Fixpoint regex_partition (pattern : Pattern) (fuel : nat)
    (self : MessageSplitter) (unseen : str) : option Yielded :=
  match fuel with
  | O => None
  | S fuel' =>
      match pattern unseen with
      | None => Some ([], self)
      | Some m =>
          let to_print := group1 m in
          let self := advance self (match_end m) in
          let unseen := unseen_window self in
          '(rest, self) ← regex_partition pattern fuel' self unseen;
          Some (to_print :: rest, self)
      end
  end.

(** The body of the [for] loop of [SentenceSplitter.partition]. *)
Definition sentence_to_print (sentence_w_char_spans : TextSpan) : str :=
  let to_print := sent sentence_w_char_spans in
  if Py.endswith to_print [newline] then Py.drop_last to_print else to_print.

(** [segments[:-1]] *)
Definition all_but_last {A} (segments : list A) : list A :=
  take (length segments - 1)%nat segments.

Fixpoint sentence_loop (segments : list TextSpan) : list str :=
  match segments with
  | [] => []
  | sentence_w_char_spans :: rest =>
      sentence_to_print sentence_w_char_spans :: sentence_loop rest
  end.

(** [SentenceSplitter.partition] *)
Definition sentence_partition (segmenter : Segmenter)
    (self : MessageSplitter) (unseen : str) : Yielded :=
  let segments := segmenter unseen in
  let yielded := sentence_loop (all_but_last segments) in
  match last segments with
  | Some final => (yielded, advance self (start final))
  | None => (yielded, self)
  end.

(** The abstract method [partition], dispatched on the subclass. *)
Definition partition (sp : Splitter) (fuel : nat)
    (self : MessageSplitter) (unseen : str) : option Yielded :=
  match sp with
  | RegexSplitter pattern => regex_partition pattern fuel self unseen
  | SentenceSplitter segmenter => Some (sentence_partition segmenter self unseen)
  end.

(** [MessageSplitter.next] *)
Definition next (sp : Splitter) (fuel : nat)
    (self : MessageSplitter) (new_token : str) : option Yielded :=
  let self := {| printed_idx := printed_idx self;
                 full_response := full_response self ++ new_token |} in
  let unseen := unseen_window self in
  if decide (END_OF_INPUT = new_token) then
    let to_print := Py.strip unseen in
    let yielded := if Py.truthy to_print then [unseen] else [] in
    Some (yielded, advance self (Py.len unseen))
  else partition sp fuel self unseen.

(** The loop of [OobaClient.request_by_message] over the tokens of the
    stream: the units and the splitter after each call of [next]. *)
Fixpoint feed (sp : Splitter) (fuel : nat) (splitter : MessageSplitter)
    (stream : list str) : option (list Yielded) :=
  match stream with
  | [] => Some []
  | new_token :: stream =>
      '(sentences, splitter) ← next sp fuel splitter new_token;
      later ← feed sp fuel splitter stream;
      Some ((sentences, splitter) :: later)
  end.

(** [OobaClient.request_by_message] *)
Definition request_by_message (sp : Splitter) (fuel : nat)
    (stream : list str) : option (list str) :=
  calls ← feed sp fuel new_splitter stream;
  Some (concat (calls.*1)).

(** One decoded server-sent event: [payload["choices"][0]["text"]] and
    [payload["choices"][0]["finish_reason"]] ([None] for JSON [null]). *)
Record Event : Type := mkEvent {
  text : str;
  finish_reason : option str
}.

(** [OobaClient.request_by_token]: the loop over [client.events()].  The
    second component is [self.total_response_tokens]. *)
Fixpoint request_by_token (events : list Event) (total_response_tokens : nat)
    : list str * nat :=
  match events with
  | [] => ([], total_response_tokens)
  | event :: events =>
      let total_response_tokens := S total_response_tokens in
      let yielded :=
        if decide (text event ≠ END_OF_INPUT) then [text event] else [] in
      match finish_reason event with
      | Some _ => (yielded ++ [END_OF_INPUT], total_response_tokens)
      | None =>
          let '(later, total) := request_by_token events total_response_tokens in
          (yielded ++ later, total)
      end
  end.

(** [OobaClient.request_as_string] *)
Definition request_as_string (events : list Event) : str :=
  Py.join (request_by_token events 0).1.

(** A token as [request_as_grouped_tokens] receives it, with the clock
    readings its iteration takes: [now] is [time.perf_counter()] right after
    the token is buffered, [after] the reading stored in [last_response] once
    a batch has been yielded. *)
Record Arrival : Type := mkArrival {
  token : str;
  now : Z;
  after : Z
}.

(** A released batch, tagged with the [yield] that produced it: the one at
    the end of the loop body, with the reading [now] that opened the gate,
    or the one under the end-of-input test. *)
Inductive Batch : Type :=
  | Windowed (released_at : Z) (tokens : str)
  | Final (tokens : str).

Definition batch_text (b : Batch) : str :=
  match b with Windowed _ tokens | Final tokens => tokens end.

Definition is_final (b : Batch) : bool :=
  match b with Final _ => true | Windowed _ _ => false end.

(** The [async for] loop of [OobaClient.request_as_grouped_tokens]. *)
Fixpoint grouped_loop (interval last_response : Z) (tokens : str)
    (stream : list Arrival) : list Batch :=
  match stream with
  | [] => []
  | arrival :: stream =>
      if decide (token arrival = END_OF_INPUT) then
        if Py.truthy tokens then [Final tokens] else []
      else
        let tokens := tokens ++ token arrival in
        if decide (now arrival < last_response + interval) then
          grouped_loop interval last_response tokens stream
        else
          Windowed (now arrival) tokens
            :: grouped_loop interval (after arrival) [] stream
  end.

(** [OobaClient.request_as_grouped_tokens]; [started] is the reading of
    [time.perf_counter()] taken before the first token is awaited. *)
Definition request_as_grouped_tokens (interval started : Z)
    (stream : list Arrival) : list Batch :=
  grouped_loop interval started [] stream.

(** ** Concrete patterns and a concrete segmenter *)

(** The pattern of the delimiter example, a lazy dot-star group followed by
    a newline: the dot does not match a newline, so the group stops at the
    first newline of the window, and there is no match when the window has
    none. *)
Fixpoint match_line (unseen : str) : option Match :=
  match unseen with
  | [] => None
  | c :: rest =>
      if decide (c = newline) then Some {| group1 := []; match_end := 1 |}
      else
        m ← match_line rest;
        Some {| group1 := c :: group1 m; match_end := 1 + match_end m |}
  end.

(** The pattern of one group holding a greedy dot-star: the group takes every
    character up to the first newline or the end of the window; it always
    matches, with the empty string when the window is empty or starts with a
    newline. *)
Fixpoint dot_star (unseen : str) : Match :=
  match unseen with
  | [] => {| group1 := []; match_end := 0 |}
  | c :: rest =>
      if decide (c = newline) then {| group1 := []; match_end := 0 |}
      else
        let m := dot_star rest in
        {| group1 := c :: group1 m; match_end := 1 + match_end m |}
  end.

Definition match_dot_star : Pattern := λ unseen, Some (dot_star unseen).

(** A small segmenter with the shape of pysbd's answers: a sentence ends
    after a full stop and the blanks that follow it; the spans cover the
    text, in order, with their offsets. *)
Fixpoint cut_sentences (seen_stop : bool) (current : str) (text : str)
    : list str :=
  match text with
  | [] => match current with [] => [] | _ => [reverse current] end
  | c :: rest =>
      if seen_stop && negb (Py.isspace c) then
        reverse current :: cut_sentences (bool_decide (c = "."%char)) [c] rest
      else
        cut_sentences (seen_stop || bool_decide (c = "."%char))
          (c :: current) rest
  end.

Fixpoint with_char_spans (offset : Z) (sentences : list str) : list TextSpan :=
  match sentences with
  | [] => []
  | s :: rest =>
      {| sent := s; start := offset; end_ := offset + Py.len s |}
        :: with_char_spans (offset + Py.len s) rest
  end.

Definition full_stop_segmenter : Segmenter :=
  λ unseen, with_char_spans 0 (cut_sentences false [] unseen).

(** ** The vocabulary of the properties of ooba_client.py *)

(** The cursor lies within the accumulated text. *)
Definition cursor_in_range (self : MessageSplitter) : Prop :=
  0 ≤ printed_idx self ≤ Py.len (full_response self).

(** What the splitters rely on from their engines: [match.end()] is an
    offset into the window that was matched, and so is the start of the last
    span of a segmentation. *)
Definition pattern_sound (pattern : Pattern) : Prop :=
  ∀ unseen m, pattern unseen = Some m → 0 ≤ match_end m ≤ Py.len unseen.

Definition segmenter_sound (segmenter : Segmenter) : Prop :=
  ∀ unseen final,
    last (segmenter unseen) = Some final → 0 ≤ start final ≤ Py.len unseen.

Definition splitter_sound (sp : Splitter) : Prop :=
  match sp with
  | RegexSplitter pattern => pattern_sound pattern
  | SentenceSplitter segmenter => segmenter_sound segmenter
  end.

(** One call moves [before] to [after]: the cursor stays in range and does
    not go back, and the text grows by the token and nothing else. *)
Definition call_preserves (before after : MessageSplitter) (tok : str) : Prop :=
  cursor_in_range after
  ∧ printed_idx before ≤ printed_idx after
  ∧ full_response after = full_response before ++ tok.

(** The unit emitted for a sentence, in the words of the specification: the
    sentence without its last character when that is a newline, the sentence
    itself otherwise. *)
Definition one_newline_stripped (sentence unit : str) : Prop :=
  (∃ body, sentence = body ++ [newline] ∧ unit = body)
  ∨ ((∀ body, sentence ≠ body ++ [newline]) ∧ unit = sentence).

(** Every match consumes at least one character of its window. *)
Definition pattern_consumes (pattern : Pattern) : Prop :=
  ∀ unseen m, pattern unseen = Some m → 1 ≤ match_end m ≤ Py.len unseen.

(** The batching example. *)
Definition example_arrivals (after_a after_b after_c after_d after_e : Z)
    : list Arrival :=
  [mkArrival (lit "a") 0 after_a; mkArrival (lit "b") 30 after_b;
   mkArrival (lit "c") 60 after_c; mkArrival (lit "d") 90 after_d;
   mkArrival (lit "e") 150 after_e; mkArrival END_OF_INPUT 160 160].

(** ** More of ooba_client.py *)

(** A value of the request sent to the service: a boolean, a number, a
    string, or a list of values. *)
#[warnings="-register-all"] Inductive Value : Type :=
  | VBool (b : bool)
  | VNumber (n : Z)
  | VStr (s : str)
  | VList (items : list Value).

(** The request [OobaClient.request_by_token] posts: the prompt, overridden
    and completed by [self.request_params] ([dict.update]), with the key
    "stream" then set to [True]. *)
Definition build_request (request_params : gmap str Value) (prompt : str)
    : gmap str Value :=
  let request : gmap str Value := {[ lit "prompt" := VStr prompt ]} in
  let request := request_params ∪ request in
  <[ lit "stream" := VBool true ]> request.

(** [OobaClient.get_stopping_strings]: [dict.get] with the default [[]]. *)
Definition get_stopping_strings (request_params : gmap str Value) : Value :=
  default (VList []) (request_params !! lit "stopping_strings").

(** The splitters whose calls return: a pattern that consumes at least one
    character at each match, or the sentence splitter, which has no loop of
    its own. *)
Definition splitter_returns (sp : Splitter) : Prop :=
  match sp with
  | RegexSplitter pattern => pattern_consumes pattern
  | SentenceSplitter _ => True
  end.

(** The spans of a segmentation lie one after the other from [offset] on
    and spell [text]. *)
Fixpoint contiguous (offset : Z) (text : str) (segments : list TextSpan)
    : Prop :=
  match segments with
  | [] => text = []
  | span :: segments =>
      start span = offset
      ∧ take (length (sent span)) text = sent span
      ∧ contiguous (offset + Py.len (sent span))
          (drop (length (sent span)) text) segments
  end.

(** The arithmetic of the clock readings: the sum and the comparison of the
    gate [now < (last_response + interval)], on whatever numbers
    [time.perf_counter()] returns.  In Python they are binary64 floats, whose
    sum is rounded; nothing is assumed of either operation here. *)
Record Clock (T : Type) : Type := mkClock {
  clock_add : T → T → T;
  clock_lt : T → T → bool
}.

Arguments clock_add {T}.
Arguments clock_lt {T}.

(** A token with its readings, and a batch, over the numbers of a clock. *)
Record TimedArrival (T : Type) : Type := mkTimedArrival {
  timed_token : str;
  timed_now : T;
  timed_after : T
}.

Arguments mkTimedArrival {T}.
Arguments timed_token {T}.
Arguments timed_now {T}.
Arguments timed_after {T}.

Inductive TimedBatch (T : Type) : Type :=
  | TimedWindowed (released_at : T) (tokens : str)
  | TimedFinal (tokens : str).

Arguments TimedWindowed {T}.
Arguments TimedFinal {T}.

Definition timed_batch_text {T} (b : TimedBatch T) : str :=
  match b with TimedWindowed _ tokens | TimedFinal tokens => tokens end.

(** The [async for] loop of [OobaClient.request_as_grouped_tokens] again,
    with the gate computed in the arithmetic of the clock. *)
Fixpoint timed_grouped_loop {T} (clock : Clock T) (interval last_response : T)
    (tokens : str) (stream : list (TimedArrival T)) : list (TimedBatch T) :=
  match stream with
  | [] => []
  | arrival :: stream =>
      if decide (timed_token arrival = END_OF_INPUT) then
        if Py.truthy tokens then [TimedFinal tokens] else []
      else
        let tokens := tokens ++ timed_token arrival in
        if clock_lt clock (timed_now arrival)
             (clock_add clock last_response interval)
        then timed_grouped_loop clock interval last_response tokens stream
        else
          TimedWindowed (timed_now arrival) tokens
            :: timed_grouped_loop clock interval (timed_after arrival) []
                 stream
  end.

Definition timed_request_as_grouped_tokens {T} (clock : Clock T)
    (interval started : T) (stream : list (TimedArrival T))
    : list (TimedBatch T) :=
  timed_grouped_loop clock interval started [] stream.

(** The clock of integer readings, which the batches above are computed
    with. *)
Definition integer_clock : Clock Z :=
  {| clock_add := Z.add; clock_lt := Z.ltb |}.

Definition timed (arrival : Arrival) : TimedArrival Z :=
  {| timed_token := token arrival; timed_now := now arrival;
     timed_after := after arrival |}.

Definition timed_batch (b : Batch) : TimedBatch Z :=
  match b with
  | Windowed released_at tokens => TimedWindowed released_at tokens
  | Final tokens => TimedFinal tokens
  end.

(** The clock does not run backwards along the stream: each reading is at
    least the one taken before it. *)
Fixpoint clock_monotone (previous : Z) (stream : list Arrival) : Prop :=
  match stream with
  | [] => True
  | arrival :: stream =>
      previous ≤ now arrival ∧ now arrival ≤ after arrival
      ∧ clock_monotone (after arrival) stream
  end.

(** ** templates.py *)

Local Close Scope Z_scope.

Definition open_brace : ascii := "{"%char.
Definition close_brace : ascii := "}"%char.

(** [s[lo:hi]] for bounds that are not negative. *)
Definition slice (s : str) (lo hi : nat) : str := take (hi - lo) (drop lo s).

(** The members of the enumeration [TemplateToken]. *)
Inductive TemplateToken : Type :=
  | AI_NAME
  | PERSONA
  | IMAGE_COMING
  | IMAGE_PROMPT
  | MESSAGE_HISTORY
  | USER_MESSAGE
  | USER_NAME.

(** The string a member is: the class derives from [str]. *)
Definition value (t : TemplateToken) : str :=
  match t with
  | AI_NAME => lit "AI_NAME"
  | PERSONA => lit "PERSONA"
  | IMAGE_COMING => lit "IMAGE_COMING"
  | IMAGE_PROMPT => lit "IMAGE_PROMPT"
  | MESSAGE_HISTORY => lit "MESSAGE_HISTORY"
  | USER_MESSAGE => lit "USER_MESSAGE"
  | USER_NAME => lit "USER_NAME"
  end.

(** [TemplateToken.__str__] *)
Definition token_str (t : TemplateToken) : str :=
  [open_brace] ++ value t ++ [close_brace].

(** The inner generator [find_all_ch]: the indices of [char] in [string], in
    increasing order; [i] is the index of the first letter of [string]. *)
Fixpoint find_all_ch_from (i : nat) (string : str) (char : ascii) : list nat :=
  match string with
  | [] => []
  | letter :: string =>
      if decide (letter = char) then i :: find_all_ch_from (S i) string char
      else find_all_ch_from (S i) string char
  end.

Definition find_all_ch (string : str) (char : ascii) : list nat :=
  find_all_ch_from 0 string char.

(** The inner [for allowed_arg in allowed_args] with its [else]: the index
    added to the set when an argument fits, [None] when the [else] raises. *)
Fixpoint find_allowed_arg (format_str : str) (open_brace_idx : nat)
    (allowed_args : list TemplateToken) : option nat :=
  match allowed_args with
  | [] => None
  | allowed_arg :: allowed_args =>
      let idx_end := (open_brace_idx + length (value allowed_arg) + 1)%nat in
      let next_substr := slice format_str open_brace_idx (idx_end + 1) in
      if decide (next_substr = [open_brace] ++ value allowed_arg ++ [close_brace])
      then Some idx_end
      else find_allowed_arg format_str open_brace_idx allowed_args
  end.

(** The loop over the opening braces: the set it builds, [None] when it
    raises. *)
Fixpoint open_brace_loop (format_str : str) (allowed_args : list TemplateToken)
    (open_brace_indices : list nat) (allowed_close_brace_indices : gset nat)
    : option (gset nat) :=
  match open_brace_indices with
  | [] => Some allowed_close_brace_indices
  | open_brace_idx :: open_brace_indices =>
      idx_end ← find_allowed_arg format_str open_brace_idx allowed_args;
      open_brace_loop format_str allowed_args open_brace_indices
        ({[idx_end]} ∪ allowed_close_brace_indices)
  end.

(** The loop over the closing braces: [false] when it raises. *)
Fixpoint close_brace_loop (close_brace_indices : list nat)
    (allowed_close_brace_indices : gset nat) : bool :=
  match close_brace_indices with
  | [] => true
  | close_brace_idx :: close_brace_indices =>
      if decide (close_brace_idx ∉ allowed_close_brace_indices) then false
      else close_brace_loop close_brace_indices allowed_close_brace_indices
  end.

Inductive Outcome : Type :=
  | Returns
  | RaisesValueError.

(** [TemplateMessageFormatter._validate_format_string] *)
Definition _validate_format_string (format_str : str)
    (allowed_args : list TemplateToken) : Outcome :=
  match open_brace_loop format_str allowed_args
          (find_all_ch format_str open_brace) ∅ with
  | None => RaisesValueError
  | Some allowed_close_brace_indices =>
      if close_brace_loop (find_all_ch format_str close_brace)
           allowed_close_brace_indices
      then Returns else RaisesValueError
  end.

(** The fields of [TemplateMessageFormatter] that formatting reads. *)
Record TemplateMessageFormatter : Type := mkFormatter {
  template : str;
  allowed_tokens : list TemplateToken
}.

(** [TemplateMessageFormatter.__init__]: [None] when validation raises. *)
Definition new_formatter (template : str) (allowed_tokens : list TemplateToken)
    : option TemplateMessageFormatter :=
  match _validate_format_string template allowed_tokens with
  | RaisesValueError => None
  | Returns =>
      Some {| template := template; allowed_tokens := allowed_tokens |}
  end.

(** Characters that end or qualify a replacement field name in Python's
    format strings. *)
Definition field_special (c : ascii) : bool :=
  bool_decide (c = open_brace) || bool_decide (c = "!"%char)
  || bool_decide (c = ":"%char) || bool_decide (c = "."%char)
  || bool_decide (c = "["%char).

(** A field name made of decimal digits, or empty, asks [str.format] for a
    positional argument. *)
Definition is_digit (c : ascii) : bool :=
  ((48 <=? nat_of_ascii c) && (nat_of_ascii c <=? 57))%nat.

Definition positional (name : str) : bool := forallb is_digit name.

(** The value of a replacement field when only keyword arguments are given:
    [None] stands for the [IndexError] of a positional field and the
    [KeyError] of a keyword that was not given. *)
Definition get_value (kwargs : gmap str str) (name : str) : option str :=
  if positional name then None else kwargs !! name.

(** [str.format] with keyword arguments only, on format strings whose
    replacement fields are plain names: doubled braces stand for one brace, a
    field is replaced by the argument of its name, and the answer is [None]
    where Python raises (a lone closing brace, an unclosed field, a field
    without a value) or where the field is more than a plain name.  [field]
    is the name read so far when the scan is inside a field. *)
Fixpoint str_format (kwargs : gmap str str) (field : option str) (s : str)
    : option str :=
  match s, field with
  | [], None => Some []
  | [], Some _ => None
  | c :: rest, None =>
      if decide (c = open_brace) then
        match rest with
        | c' :: rest' =>
            if decide (c' = open_brace)
            then (open_brace ::.) <$> str_format kwargs None rest'
            else str_format kwargs (Some []) rest
        | [] => None
        end
      else if decide (c = close_brace) then
        match rest with
        | c' :: rest' =>
            if decide (c' = close_brace)
            then (close_brace ::.) <$> str_format kwargs None rest'
            else None
        | [] => None
        end
      else (c ::.) <$> str_format kwargs None rest
  | c :: rest, Some name =>
      if decide (c = close_brace) then
        replacement ← get_value kwargs name;
        later ← str_format kwargs None rest;
        Some (replacement ++ later)
      else if field_special c then None
      else str_format kwargs (Some (name ++ [c])) rest
  end.

(** [TemplateMessageFormatter.format]; a key of [format_args] is the string
    its token is. *)
Definition format (self : TemplateMessageFormatter)
    (format_args : gmap str str) : option str :=
  str_format format_args None (template self).

(** ** The vocabulary of the properties of templates.py *)

(** The text of token [t] in braces stands in [format_str] from index [i]. *)
Definition occurs_at (format_str : str) (i : nat) (t : TemplateToken) : Prop :=
  ∃ rest, drop i format_str = token_str t ++ rest.

(** The brace at [i] opens an allowed token; the brace at [j] closes one. *)
Definition begins_allowed (format_str : str) (allowed : list TemplateToken)
    (i : nat) : Prop :=
  ∃ t, t ∈ allowed ∧ occurs_at format_str i t.

Definition ends_allowed (format_str : str) (allowed : list TemplateToken)
    (j : nat) : Prop :=
  ∃ i t, t ∈ allowed ∧ occurs_at format_str i t ∧ j = i + length (value t) + 1.

Definition braces_allowed (format_str : str) (allowed : list TemplateToken)
    : Prop :=
  (∀ i, format_str !! i = Some open_brace → begins_allowed format_str allowed i)
  ∧ (∀ j, format_str !! j = Some close_brace → ends_allowed format_str allowed j).

(** No token has a brace in its name, nor any character that would make
    its replacement field more than a plain name. *)
Definition plain_name (v : str) : Prop :=
  Forall (λ c, c ≠ close_brace ∧ field_special c = false) v.

(** A template read as a sequence of pieces: a character that is copied, or
    the replacement field of a token. *)
Inductive Piece : Type :=
  | Text (c : ascii)
  | Field (t : TemplateToken).

(** What a piece is in the template, and what it is in the formatted text. *)
Definition written (p : Piece) : str :=
  match p with Text c => [c] | Field t => token_str t end.

Definition filled (format_args : gmap str str) (p : Piece) : str :=
  match p with
  | Text c => [c]
  | Field t => default [] (format_args !! value t)
  end.

Definition piece_allowed (allowed : list TemplateToken) (p : Piece) : Prop :=
  match p with
  | Text c => c ≠ open_brace ∧ c ≠ close_brace
  | Field t => t ∈ allowed
  end.

(** No occurrence of a token straddles index [k]: one that starts before
    [k] also ends before [k]. *)
Definition between_tokens (format_str : str) (k : nat) : Prop :=
  ∀ i t, occurs_at format_str i t → i < k → i + length (value t) + 1 < k.

(** ** More of templates.py *)

(** [a < b] on strings: the order of the first code point that differs, a
    proper prefix being smaller. *)
Fixpoint str_lt (a b : str) : bool :=
  match a, b with
  | _, [] => false
  | [], _ :: _ => true
  | x :: a, y :: b =>
      if decide (x = y) then str_lt a b
      else (nat_of_ascii x <? nat_of_ascii y)%nat
  end.

(** The members of the enumeration [Templates]. *)
Inductive Templates : Type :=
  | COMMAND_LOBOTOMIZE_RESPONSE
  | IMAGE_DETACH
  | IMAGE_CONFIRMATION
  | IMAGE_GENERATION_ERROR
  | IMAGE_UNAUTHORIZED
  | PROMPT
  | PROMPT_HISTORY_LINE
  | PROMPT_IMAGE_COMING.

(** The value of a member, which [Templates.__str__] returns. *)
Definition Templates_str (t : Templates) : str :=
  match t with
  | COMMAND_LOBOTOMIZE_RESPONSE => lit "command_lobotomize_response"
  | IMAGE_DETACH => lit "image_detach"
  | IMAGE_CONFIRMATION => lit "image_confirmation"
  | IMAGE_GENERATION_ERROR => lit "image_generation_error"
  | IMAGE_UNAUTHORIZED => lit "image_unauthorized"
  | PROMPT => lit "prompt"
  | PROMPT_HISTORY_LINE => lit "prompt_history_line"
  | PROMPT_IMAGE_COMING => lit "prompt_image_coming"
  end.

#[global] Instance Templates_eq_dec : EqDecision Templates.
Proof. solve_decision. Defined.

Definition Templates_code (t : Templates) : nat :=
  match t with
  | COMMAND_LOBOTOMIZE_RESPONSE => 0
  | IMAGE_DETACH => 1
  | IMAGE_CONFIRMATION => 2
  | IMAGE_GENERATION_ERROR => 3
  | IMAGE_UNAUTHORIZED => 4
  | PROMPT => 5
  | PROMPT_HISTORY_LINE => 6
  | PROMPT_IMAGE_COMING => 7
  end.

Definition Templates_of_code (n : nat) : Templates :=
  match n with
  | 0 => COMMAND_LOBOTOMIZE_RESPONSE
  | 1 => IMAGE_DETACH
  | 2 => IMAGE_CONFIRMATION
  | 3 => IMAGE_GENERATION_ERROR
  | 4 => IMAGE_UNAUTHORIZED
  | 5 => PROMPT
  | 6 => PROMPT_HISTORY_LINE
  | _ => PROMPT_IMAGE_COMING
  end.

#[global] Instance Templates_countable : Countable Templates.
Proof.
  apply (inj_countable' Templates_code Templates_of_code). by intros [].
Defined.

(** [Templates.__lt__], and the three comparisons [functools.total_ordering]
    derives from it and from the equality of members. *)
Definition Templates_lt (self other : Templates) : bool :=
  str_lt (Templates_str self) (Templates_str other).

Definition Templates_le (self other : Templates) : bool :=
  Templates_lt self other || bool_decide (self = other).

Definition Templates_gt (self other : Templates) : bool :=
  negb (Templates_lt self other) && bool_decide (self ≠ other).

Definition Templates_ge (self other : Templates) : bool :=
  negb (Templates_lt self other).

(** [TemplateStore.TEMPLATES], in the order of the dictionary: the tokens
    allowed in each template.  The description and the flag of an entry are
    stored by the formatter and read by nothing modelled here. *)
Definition TEMPLATES : list (Templates * list TemplateToken) :=
  [ (COMMAND_LOBOTOMIZE_RESPONSE, [AI_NAME; USER_NAME]);
    (PROMPT, [AI_NAME; IMAGE_COMING; MESSAGE_HISTORY; PERSONA]);
    (PROMPT_HISTORY_LINE, [USER_MESSAGE; USER_NAME]);
    (PROMPT_IMAGE_COMING, [AI_NAME]);
    (IMAGE_DETACH, [IMAGE_PROMPT; USER_NAME]);
    (IMAGE_CONFIRMATION, [IMAGE_PROMPT; USER_NAME]);
    (IMAGE_GENERATION_ERROR, [IMAGE_PROMPT; USER_NAME]);
    (IMAGE_UNAUTHORIZED, [USER_NAME]) ].

(** The exceptions [TemplateStore.__init__] can raise. *)
Inductive Exception : Type :=
  | KeyError
  | ValueError.

(** [self.templates] of a [TemplateStore]. *)
Abbreviation TemplateStore := (gmap Templates TemplateMessageFormatter).

(** [TemplateStore.add_template]: [None] when the formatter's [__init__]
    raises its [ValueError]. *)
Definition add_template (self : TemplateStore) (template_name : Templates)
    (format_str : str) (allowed_tokens : list TemplateToken)
    : option TemplateStore :=
  formatter ← new_formatter format_str allowed_tokens;
  Some (<[ template_name := formatter ]> self).

(** The loop of [TemplateStore.__init__] over [TEMPLATES.items()].  A
    setting is [None] or a string; a name that [settings] lacks raises
    [KeyError]. *)
Fixpoint store_init_loop (settings : gmap str (option str))
    (items : list (Templates * list TemplateToken)) (self : TemplateStore)
    : Exception + TemplateStore :=
  match items with
  | [] => inr self
  | (template, tokens) :: items =>
      let template_name := Templates_str template in
      match settings !! template_name with
      | None => inl KeyError
      | Some None => inl ValueError
      | Some (Some template_fmt) =>
          match add_template self template template_fmt tokens with
          | None => inl ValueError
          | Some self => store_init_loop settings items self
          end
      end
  end.

(** [TemplateStore.__init__] *)
Definition new_store (settings : gmap str (option str))
    : Exception + TemplateStore :=
  store_init_loop settings TEMPLATES ∅.

(** [TemplateStore.format]: [None] when the name is not in the store or the
    formatter raises. *)
Definition store_format (self : TemplateStore) (template_name : Templates)
    (format_args : gmap str str) : option str :=
  formatter ← self !! template_name;
  format formatter format_args.

(** [TEMPLATES[template]]: the entry of a key in the dictionary. *)
Fixpoint entry {A} (key : Templates) (items : list (Templates * A))
    : option A :=
  match items with
  | [] => None
  | (k, v) :: items => if decide (k = key) then Some v else entry key items
  end.

(** The tokens [TEMPLATES] allows in a template. *)
Definition tokens_of (template : Templates) : list TemplateToken :=
  default [] (entry template TEMPLATES).

(** Settings that give every template a format string. *)
Definition example_settings : gmap str (option str) :=
  list_to_map
    [ (lit "command_lobotomize_response", Some (lit "What were we saying?"));
      (lit "prompt",
       Some (lit "{PERSONA} You are {AI_NAME}. {MESSAGE_HISTORY}{IMAGE_COMING}"));
      (lit "prompt_history_line", Some (lit "{USER_NAME}: {USER_MESSAGE}"));
      (lit "prompt_image_coming", Some (lit "{AI_NAME} is drawing."));
      (lit "image_detach", Some (lit "{USER_NAME} asked for {IMAGE_PROMPT}"));
      (lit "image_confirmation", Some (lit "{USER_NAME}, is this it?"));
      (lit "image_generation_error", Some (lit "Something went wrong."));
      (lit "image_unauthorized", Some (lit "Only {USER_NAME} may do that.")) ].

(** The tokens a sequence of pieces uses. *)
Fixpoint fields (pieces : list Piece) : list TemplateToken :=
  match pieces with
  | [] => []
  | Text _ :: pieces => fields pieces
  | Field t :: pieces => t :: fields pieces
  end.

(* ================================================================== *)
(** * Properties *)

Local Open Scope Z_scope.

(** ** Python strings *)

Lemma len_app (s t : str) : Py.len (s ++ t) = Py.len s + Py.len t.
Proof. unfold Py.len. rewrite length_app. lia. Qed.

Lemma len_nonneg (s : str) : 0 ≤ Py.len s.
Proof. unfold Py.len. lia. Qed.

(** Within the string, the slice drops exactly the first [i] characters. *)
Lemma slice_from_drop (s : str) (i : Z) :
  0 ≤ i → Py.slice_from s i = drop (Z.to_nat i) s.
Proof. intros Hi. unfold Py.slice_from. case_decide; [lia | done]. Qed.

Lemma len_slice_from (s : str) (i : Z) :
  0 ≤ i ≤ Py.len s → Py.len (Py.slice_from s i) = Py.len s - i.
Proof.
  intros Hi. rewrite slice_from_drop by lia.
  unfold Py.len in *. rewrite length_drop. lia.
Qed.

Lemma slice_from_end (s : str) (i : Z) :
  Py.len s ≤ i → Py.slice_from s i = [].
Proof.
  intros Hi. pose proof (len_nonneg s).
  rewrite slice_from_drop by lia.
  apply drop_ge. unfold Py.len in *. lia.
Qed.

Lemma lstrip_nil_iff (s : str) :
  Py.lstrip s = [] ↔ Forall (λ c, Py.isspace c = true) s.
Proof.
  induction s as [|c s IH]; simpl.
  - split; [constructor | done].
  - destruct (Py.isspace c) eqn:Hc.
    + rewrite IH. split; [by constructor | by inversion 1].
    + split; [done | inversion 1; congruence].
Qed.

Lemma lstrip_suffix (s : str) : Py.lstrip s `suffix_of` s.
Proof.
  induction s as [|c s IH]; simpl; [done |].
  destruct (Py.isspace c); [by apply suffix_cons_r | done].
Qed.

(** The stripped string is empty exactly when every character is a blank. *)
Lemma strip_nil_iff (s : str) :
  Py.strip s = [] ↔ Forall (λ c, Py.isspace c = true) s.
Proof.
  unfold Py.strip, Py.rstrip. split.
  - intros H. apply (f_equal reverse) in H. rewrite reverse_involutive in H.
    change (reverse []) with (@nil ascii) in H.
    apply lstrip_nil_iff in H. rewrite Forall_reverse in H.
    destruct (Py.lstrip s) as [|c t] eqn:Hs; [by apply lstrip_nil_iff |].
    exfalso.
    assert (Py.isspace c = true) as Hc by (by inversion H).
    clear H. induction s as [|d s IH]; simpl in Hs; [done |].
    destruct (Py.isspace d) eqn:Hd; [auto | congruence].
  - intros H. apply lstrip_nil_iff in H. by rewrite H.
Qed.

Lemma truthy_strip (s : str) :
  Py.truthy (Py.strip s) = true ↔ Exists (λ c, Py.isspace c = false) s.
Proof.
  destruct (Forall_Exists_dec (λ c, Py.isspace c = true)
              (λ c, Py.isspace c = false)
              (λ c, bool_rect (λ b, {b = true} + {b = false})
                      (left eq_refl) (right eq_refl) (Py.isspace c)) s)
    as [Hall | Hex].
  - pose proof Hall as Hnil. apply strip_nil_iff in Hnil. rewrite Hnil.
    split; [done |]. intros Hex. exfalso.
    apply Exists_exists in Hex as (c & Hin & Hc).
    rewrite Forall_forall in Hall. specialize (Hall c Hin). congruence.
  - split; [done |]. intros _.
    destruct (Py.strip s) eqn:Hs; [| done]. exfalso.
    apply strip_nil_iff in Hs.
    apply Exists_exists in Hex as (c & Hin & Hc).
    rewrite Forall_forall in Hs. specialize (Hs c Hin). congruence.
Qed.

Lemma endswith_char (s : str) (c : ascii) :
  Py.endswith s [c] = true ↔ ∃ body, s = body ++ [c].
Proof.
  unfold Py.endswith. rewrite andb_true_iff, !bool_decide_eq_true. simpl.
  split.
  - intros [Hlen Hdrop]. exists (take (length s - 1) s).
    rewrite <- Hdrop. symmetry. apply take_drop.
  - intros [body ->]. rewrite length_app. simpl. split; [lia |].
    replace (length body + 1 - 1)%nat with (length body) by lia.
    by rewrite drop_app_length.
Qed.

Lemma drop_last_snoc (body : str) (c : ascii) :
  Py.drop_last (body ++ [c]) = body.
Proof.
  unfold Py.drop_last. rewrite length_app. simpl.
  replace (length body + 1 - 1)%nat with (length body) by lia.
  by rewrite take_app_length.
Qed.

(** ** [MessageSplitter.next] on an ordinary token *)

Lemma regex_partition_full_response (pattern : Pattern) (fuel : nat) :
  ∀ self unseen yielded self',
    regex_partition pattern fuel self unseen = Some (yielded, self') →
    full_response self' = full_response self.
Proof.
  induction fuel as [|fuel IH]; intros self unseen yielded self' H; [done |].
  simpl in H. destruct (pattern unseen) as [m|]; [| by simplify_eq].
  destruct (regex_partition _ _ _ _) as [[rest s]|] eqn:Hrec; [| done].
  simpl in H. simplify_eq. by apply IH in Hrec.
Qed.

Lemma sentence_partition_full_response (segmenter : Segmenter) self unseen :
  full_response (sentence_partition segmenter self unseen).2
  = full_response self.
Proof. unfold sentence_partition. by destruct (last _). Qed.

Lemma partition_full_response (sp : Splitter) fuel self unseen yielded self' :
  partition sp fuel self unseen = Some (yielded, self') →
  full_response self' = full_response self.
Proof.
  destruct sp as [pattern | segmenter]; simpl.
  - apply regex_partition_full_response.
  - intros [= Heq].
    pose proof (sentence_partition_full_response segmenter self unseen) as H.
    by rewrite Heq in H.
Qed.

(** C1, as the code has it: the marker is the empty string, so it is a
    non-empty token that [next] appends to [full_response] and hands, through
    the unseen window, to the subclass's [partition], never taking the flush
    path. *)
Theorem next_ordinary_token (sp : Splitter) (fuel : nat)
    (self : MessageSplitter) (new_token : str) :
  new_token ≠ [] →
  let appended := {| printed_idx := printed_idx self;
                     full_response := full_response self ++ new_token |} in
  new_token ≠ END_OF_INPUT
  ∧ next sp fuel self new_token
    = partition sp fuel appended (unseen_window appended)
  ∧ ∀ yielded self',
      next sp fuel self new_token = Some (yielded, self') →
      full_response self' = full_response self ++ new_token.
Proof.
  intros Hne appended.
  assert (next sp fuel self new_token
          = partition sp fuel appended (unseen_window appended)) as Hnext.
  { unfold next. case_decide as Hmark; [| done].
    unfold END_OF_INPUT in Hmark. congruence. }
  split_and!; [done | done |].
  intros yielded self' H. rewrite Hnext in H.
  by apply partition_full_response in H.
Qed.

Lemma next_ordinary_token_witness :
  next (RegexSplitter match_line) 2 new_splitter (lit "Hello")
  = partition (RegexSplitter match_line) 2
      {| printed_idx := 0; full_response := lit "Hello" |} (lit "Hello").
Proof.
  refine (proj1 (proj2 (next_ordinary_token (RegexSplitter match_line) 2
                          new_splitter (lit "Hello") _))).
  discriminate.
Defined.

(** C1 as stated fails for the empty token: it is the marker, and [next]
    flushes the window where [partition] would have emitted nothing. *)
Lemma empty_token_takes_the_flush_path :
  let self := {| printed_idx := 0; full_response := lit "abc" |} in
  lit "" = END_OF_INPUT
  ∧ next (RegexSplitter match_line) 2 self (lit "")
    = Some ([lit "abc"], {| printed_idx := 3; full_response := lit "abc" |})
  ∧ partition (RegexSplitter match_line) 2 self (unseen_window self)
    = Some ([], self)
  ∧ next (RegexSplitter match_line) 2 self (lit "")
    ≠ partition (RegexSplitter match_line) 2
        {| printed_idx := 0; full_response := lit "abc" ++ lit "" |}
        (unseen_window
           {| printed_idx := 0; full_response := lit "abc" ++ lit "" |}).
Proof. by vm_compute. Qed.

(** ** [OobaClient.request_by_token] *)

Lemma request_by_token_unfinished (events : list Event) :
  Forall (λ e, finish_reason e = None) events →
  ∀ total,
    request_by_token events total
    = (filter (λ t, t ≠ END_OF_INPUT) (text <$> events),
       (total + length events)%nat).
Proof.
  induction 1 as [|e events He _ IH]; intros total; simpl.
  - f_equal. lia.
  - rewrite He, IH. rewrite filter_cons.
    f_equal; first [lia | by case_decide].
Qed.

Lemma request_by_token_finished (before after : list Event)
    (final : Event) (reason : str) (total : nat) :
  Forall (λ e, finish_reason e = None) before →
  finish_reason final = Some reason →
  request_by_token (before ++ final :: after) total
  = (filter (λ t, t ≠ END_OF_INPUT) (text <$> before ++ [final])
     ++ [END_OF_INPUT],
     (total + length before + 1)%nat).
Proof.
  intros Hbefore Hfinal. revert total.
  induction Hbefore as [|e before He _ IH]; intros total; simpl.
  - rewrite Hfinal. rewrite filter_cons, filter_nil.
    f_equal; first [lia | by case_decide].
  - rewrite He, IH. rewrite filter_cons.
    f_equal; first [lia | by case_decide].
Qed.

(** C3, as the code has it: up to and including the first event that carries
    a finish reason, the text deltas are yielded in order except the empty
    ones, which are dropped; then the marker is yielded once, and nothing
    after it.  Every event read is counted. *)
Theorem request_by_token_clean_finish (before after : list Event)
    (final : Event) (reason : str) (total : nat) :
  Forall (λ e, finish_reason e = None) before →
  finish_reason final = Some reason →
  let deltas := filter (λ t, t ≠ END_OF_INPUT) (text <$> before ++ [final]) in
  request_by_token (before ++ final :: after) total
  = (deltas ++ [END_OF_INPUT], (total + length before + 1)%nat)
  ∧ END_OF_INPUT ∉ deltas.
Proof.
  intros Hbefore Hfinal deltas. split.
  - by eapply request_by_token_finished.
  - subst deltas. rewrite list_elem_of_filter. tauto.
Qed.

Lemma request_by_token_clean_finish_witness :
  request_by_token
    [mkEvent (lit "Oh") None; mkEvent (lit "") None;
     mkEvent (lit ",") (Some (lit "stop")); mkEvent (lit "late") None] 0
  = ([lit "Oh"; lit ","; END_OF_INPUT], 3%nat).
Proof.
  refine (proj1 (request_by_token_clean_finish
                   [mkEvent (lit "Oh") None; mkEvent (lit "") None]
                   [mkEvent (lit "late") None]
                   (mkEvent (lit ",") (Some (lit "stop")))
                   (lit "stop") 0 _ _)).
  - repeat constructor.
  - reflexivity.
Defined.

(** C3 as stated fails on an empty delta: raw mode does not yield it. *)
Lemma request_by_token_drops_empty_delta :
  let events := [mkEvent (lit "") None; mkEvent (lit "a") (Some (lit "stop"))] in
  (request_by_token events 0).1 = [lit "a"; END_OF_INPUT]
  ∧ (request_by_token events 0).1 ≠ (text <$> events) ++ [END_OF_INPUT].
Proof. by vm_compute. Qed.

(** ** The cursor invariant *)

Lemma len_unseen_window (self : MessageSplitter) :
  cursor_in_range self →
  Py.len (unseen_window self) = Py.len (full_response self) - printed_idx self.
Proof. intros H. by apply len_slice_from. Qed.

Lemma advance_in_range (self : MessageSplitter) (n : Z) :
  cursor_in_range self → 0 ≤ n ≤ Py.len (unseen_window self) →
  cursor_in_range (advance self n).
Proof.
  intros Hself Hn. rewrite len_unseen_window in Hn by done.
  unfold cursor_in_range in *. simpl. lia.
Qed.

Lemma regex_partition_in_range (pattern : Pattern) :
  pattern_sound pattern →
  ∀ fuel self yielded self',
    cursor_in_range self →
    regex_partition pattern fuel self (unseen_window self)
    = Some (yielded, self') →
    cursor_in_range self' ∧ printed_idx self ≤ printed_idx self'.
Proof.
  intros Hsound. induction fuel as [|fuel IH]; intros self yielded self' Hin H.
  { done. }
  simpl in H. destruct (pattern (unseen_window self)) as [m|] eqn:Hm.
  - destruct (regex_partition _ _ _ _) as [[rest s]|] eqn:Hrec; [| done].
    simpl in H. simplify_eq.
    apply Hsound in Hm.
    apply IH in Hrec as [Hin' Hle]; [| by apply advance_in_range].
    split; [done |]. simpl in Hle. lia.
  - simplify_eq. split; [done | lia].
Qed.

Lemma sentence_partition_in_range (segmenter : Segmenter) :
  segmenter_sound segmenter →
  ∀ self,
    cursor_in_range self →
    let self' := (sentence_partition segmenter self (unseen_window self)).2 in
    cursor_in_range self' ∧ printed_idx self ≤ printed_idx self'.
Proof.
  intros Hsound self Hin. unfold sentence_partition.
  destruct (last _) as [final|] eqn:Hlast; simpl.
  - apply Hsound in Hlast. split; [by apply advance_in_range | lia].
  - split; [done | lia].
Qed.

Lemma next_preserves (sp : Splitter) :
  splitter_sound sp →
  ∀ fuel self new_token yielded self',
    cursor_in_range self →
    next sp fuel self new_token = Some (yielded, self') →
    call_preserves self self' new_token.
Proof.
  intros Hsound fuel self new_token yielded self' Hin H.
  set (appended := {| printed_idx := printed_idx self;
                      full_response := full_response self ++ new_token |}).
  assert (cursor_in_range appended) as Happ.
  { unfold cursor_in_range in *. simpl. rewrite len_app.
    pose proof (len_nonneg new_token). lia. }
  unfold next in H. fold appended in H. unfold call_preserves.
  case_decide as Hmark.
  - simplify_eq. pose proof (len_nonneg (unseen_window appended)).
    split; [| split; [simpl; lia | done]].
    apply advance_in_range; [done | lia].
  - destruct sp as [pattern | segmenter]; simpl in H.
    + pose proof (regex_partition_full_response _ _ _ _ _ _ H) as Hfull.
      apply regex_partition_in_range in H as [Hin' Hle]; [| done | done].
      split; [done | split; [apply Hle | apply Hfull]].
    + injection H as H.
      pose proof (sentence_partition_full_response segmenter appended
                    (unseen_window appended)) as Hfull.
      destruct (sentence_partition_in_range segmenter Hsound appended Happ)
        as [Hin' Hle].
      cbv zeta in Hin', Hle. rewrite H in Hfull, Hin', Hle.
      split; [done | split; [apply Hle | apply Hfull]].
Qed.

Lemma feed_preserves (sp : Splitter) (fuel : nat) :
  splitter_sound sp →
  ∀ stream splitter calls,
    cursor_in_range splitter →
    feed sp fuel splitter stream = Some calls →
    ∀ k before after tok,
      (splitter :: calls.*2) !! k = Some before →
      calls.*2 !! k = Some after →
      stream !! k = Some tok →
      call_preserves before after tok.
Proof.
  intros Hsound. induction stream as [|new_token stream IH];
    intros splitter calls Hin H k before after tok Hb Ha Ht; [done |].
  simpl in H.
  destruct (next sp fuel splitter new_token) as [[sentences s]|] eqn:Hnext;
    [| done].
  simpl in H.
  destruct (feed sp fuel s stream) as [later|] eqn:Hfeed; [| done].
  simpl in H. simplify_eq.
  pose proof (next_preserves sp Hsound _ _ _ _ _ Hin Hnext) as Hcall.
  destruct k as [|k]; simpl in *.
  - by simplify_eq.
  - eapply (IH s later); [apply Hcall | done | done | done | done].
Qed.

(** C4: along any sequence of calls of [next] on a fresh splitter of either
    subclass, after every call the cursor is between 0 and the length of
    [full_response], it is not smaller than before the call, and
    [full_response] is what it was before the call followed by the token. *)
Theorem cursor_monotone_and_in_range (sp : Splitter) (fuel : nat)
    (stream : list str) (calls : list Yielded) :
  splitter_sound sp →
  feed sp fuel new_splitter stream = Some calls →
  ∀ k before after tok,
    (new_splitter :: calls.*2) !! k = Some before →
    calls.*2 !! k = Some after →
    stream !! k = Some tok →
    0 ≤ printed_idx after ≤ Py.len (full_response after)
    ∧ printed_idx before ≤ printed_idx after
    ∧ full_response after = full_response before ++ tok.
Proof.
  intros Hsound Hfeed k before after tok Hb Ha Ht.
  by eapply (feed_preserves sp fuel Hsound stream new_splitter calls).
Qed.

(** The matcher is the anchored pattern read declaratively: the group is
    the text before the first newline of the window, and the match ends
    after that newline. *)
Lemma match_line_spec (unseen : str) (m : Match) :
  match_line unseen = Some m
  ↔ ∃ rest,
      unseen = group1 m ++ (newline :: rest)
      ∧ (newline ∉ group1 m)
      ∧ match_end m = Py.len (group1 m) + 1.
Proof.
  revert m. induction unseen as [|c unseen IH]; intros m; simpl.
  - split; [done |]. intros (rest & H & _). by destruct (group1 m).
  - case_decide as Hc.
    + subst c. split.
      * intros [= <-]. exists unseen. simpl. split_and!; [done | | done].
        apply not_elem_of_nil.
      * intros (rest & H & Hnot & Hend). destruct m as [[|c g] e]; simpl in *.
        -- by simplify_eq.
        -- simplify_eq. exfalso. apply Hnot. by left.
    + split.
      * destruct (match_line unseen) as [m'|]; [| done]. simpl.
        intros [= <-].
        destruct (proj1 (IH m') eq_refl) as (rest & -> & Hnot & Hend).
        exists rest. simpl. split_and!; [done | |].
        -- rewrite not_elem_of_cons. split; [congruence | done].
        -- rewrite Hend. unfold Py.len. simpl length. lia.
      * intros (rest & H & Hnot & Hend). destruct m as [[|c' g] e]; simpl in *.
        -- by simplify_eq.
        -- simplify_eq. apply not_elem_of_cons in Hnot as [_ Hnot].
           assert (match_line (g ++ newline :: rest)
                   = Some {| group1 := g; match_end := Py.len g + 1 |}) as ->.
           { apply IH. by exists rest. }
           simpl. do 2 f_equal. unfold Py.len. simpl length. lia.
Qed.

Lemma match_line_none (unseen : str) :
  match_line unseen = None ↔ newline ∉ unseen.
Proof.
  induction unseen as [|c unseen IH]; simpl.
  - split; [intros _; apply not_elem_of_nil | done].
  - rewrite not_elem_of_cons. case_decide as Hc.
    + split; [done | intros [Hne _]; congruence].
    + destruct (match_line unseen); simpl.
      * split; [done |]. intros [_ Hnot]. by apply IH in Hnot.
      * split; [| done]. intros _. split; [congruence | by apply IH].
Qed.

Lemma match_line_end (unseen : str) (m : Match) :
  match_line unseen = Some m → 1 ≤ match_end m ≤ Py.len unseen.
Proof.
  revert m. induction unseen as [|c rest IH]; intros m H; simpl in H; [done |].
  unfold Py.len in *. simpl length.
  case_decide.
  - simplify_eq. simpl. lia.
  - destruct (match_line rest) as [m'|]; [| done]. simpl in H. simplify_eq.
    specialize (IH m' eq_refl). simpl. lia.
Qed.

Lemma match_line_sound : pattern_sound match_line.
Proof. intros unseen m H. apply match_line_end in H. lia. Qed.

Lemma cut_sentences_concat (text : str) :
  ∀ seen_stop current,
    concat (cut_sentences seen_stop current text) = reverse current ++ text.
Proof.
  induction text as [|c rest IH]; intros seen_stop current; simpl.
  - destruct current; simpl; by rewrite ?app_nil_r.
  - destruct (seen_stop && negb (Py.isspace c)); simpl; rewrite IH.
    + done.
    + by rewrite reverse_cons, <- app_assoc.
Qed.

Lemma with_char_spans_last (sentences : list str) :
  ∀ offset final,
    last (with_char_spans offset sentences) = Some final →
    offset ≤ start final ≤ offset + Py.len (concat sentences).
Proof.
  induction sentences as [|s rest IH]; intros offset final H; [done |].
  pose proof (len_nonneg s). pose proof (len_nonneg (concat rest)).
  cbn [concat]. rewrite len_app.
  destruct rest as [|s' rest].
  - injection H as <-. cbn [start]. lia.
  - change (last (with_char_spans (offset + Py.len s) (s' :: rest))
            = Some final) in H.
    apply IH in H. lia.
Qed.

Lemma full_stop_segmenter_sound : segmenter_sound full_stop_segmenter.
Proof.
  intros unseen final H. unfold full_stop_segmenter in H.
  apply with_char_spans_last in H.
  by rewrite cut_sentences_concat in H.
Qed.

Lemma cursor_monotone_and_in_range_witness :
  (0 ≤ 12 ≤ Py.len (lit "Hello world" ++ [newline])
   ∧ 0 ≤ 12
   ∧ lit "Hello world" ++ [newline]
     = lit "Hello" ++ (lit " world" ++ [newline]))
  ∧ (0 ≤ 13 ≤ Py.len (lit "The cat sat. The dog ran.")
     ∧ 13 ≤ 13
     ∧ lit "The cat sat. The dog ran." = lit "The cat sat. The dog " ++ lit "ran.").
Proof.
  split.
  - refine (cursor_monotone_and_in_range (RegexSplitter match_line) 2
              [lit "Hello"; lit " world" ++ [newline]]
              [([], {| printed_idx := 0; full_response := lit "Hello" |});
               ([lit "Hello world"],
                {| printed_idx := 12;
                   full_response := lit "Hello world" ++ [newline] |})]
              match_line_sound _ 1%nat
              {| printed_idx := 0; full_response := lit "Hello" |}
              {| printed_idx := 12;
                 full_response := lit "Hello world" ++ [newline] |}
              (lit " world" ++ [newline]) _ _ _); reflexivity.
  - refine (cursor_monotone_and_in_range
              (SentenceSplitter full_stop_segmenter) 0
              [lit "The cat sat. The dog "; lit "ran."]
              [([lit "The cat sat. "],
                {| printed_idx := 13;
                   full_response := lit "The cat sat. The dog " |});
               ([],
                {| printed_idx := 13;
                   full_response := lit "The cat sat. The dog ran." |})]
              full_stop_segmenter_sound _ 1%nat
              {| printed_idx := 13;
                 full_response := lit "The cat sat. The dog " |}
              {| printed_idx := 13;
                 full_response := lit "The cat sat. The dog ran." |}
              (lit "ran.") _ _ _); reflexivity.
Defined.

(** ** The end-of-input path of [MessageSplitter.next] *)

Lemma advance_zero (self : MessageSplitter) : advance self 0 = self.
Proof. destruct self as [i full]. unfold advance. simpl. f_equal. lia. Qed.

(** C5: on the marker, [next] yields the unseen window as one unit when it
    holds a character that is not a blank, and nothing otherwise; with the
    cursor in range it ends at the length of [full_response], which the
    marker leaves as it was; and when the cursor was already there, nothing
    is yielded and the splitter is unchanged. *)
Theorem next_end_of_input (sp : Splitter) (fuel : nat) (self : MessageSplitter) :
  ∃ yielded self',
    next sp fuel self END_OF_INPUT = Some (yielded, self')
    ∧ (Py.strip (unseen_window self) ≠ [] → yielded = [unseen_window self])
    ∧ (Py.strip (unseen_window self) = [] → yielded = [])
    ∧ full_response self' = full_response self
    ∧ (0 ≤ printed_idx self ≤ Py.len (full_response self) →
       printed_idx self' = Py.len (full_response self'))
    ∧ (printed_idx self = Py.len (full_response self) →
       yielded = [] ∧ self' = self).
Proof.
  assert ({| printed_idx := printed_idx self;
             full_response := full_response self ++ END_OF_INPUT |} = self)
    as Hsame.
  { destruct self as [i full]. simpl. unfold END_OF_INPUT.
    by rewrite app_nil_r. }
  unfold next. rewrite Hsame. rewrite decide_True by done.
  eexists _, _. split; [reflexivity |].
  split_and!.
  - intros Hne. by destruct (Py.strip (unseen_window self)).
  - by intros ->.
  - done.
  - intros Hin. simpl. rewrite len_unseen_window by done. lia.
  - intros Hend. pose proof (len_nonneg (full_response self)).
    assert (unseen_window self = []) as ->.
    { apply slice_from_end. lia. }
    split; [done |]. apply advance_zero.
Qed.

Lemma next_end_of_input_witness :
  ∃ yielded self',
    next (RegexSplitter match_line) 2
      {| printed_idx := 12; full_response := lit "Hello world" ++ [newline] |}
      END_OF_INPUT = Some (yielded, self')
    ∧ yielded = []
    ∧ self' = {| printed_idx := 12;
                 full_response := lit "Hello world" ++ [newline] |}
    ∧ printed_idx self' = Py.len (full_response self').
Proof.
  destruct (next_end_of_input (RegexSplitter match_line) 2
              {| printed_idx := 12;
                 full_response := lit "Hello world" ++ [newline] |})
    as (yielded & self' & Hnext & _ & _ & _ & Hrange & Hdone).
  exists yielded, self'.
  destruct (Hdone eq_refl) as [Hnil Hsame].
  split; [exact Hnext |]. split; [exact Hnil |]. split; [exact Hsame |].
  apply Hrange. vm_compute. split; discriminate.
Defined.

(** A window of blanks only is dropped on the marker, not emitted. *)
Example end_of_input_blank_window :
  next (RegexSplitter match_line) 2
    {| printed_idx := 3; full_response := lit "Bye  " |} END_OF_INPUT
  = Some ([], {| printed_idx := 5; full_response := lit "Bye  " |}).
Proof. reflexivity. Qed.

(** The unit emitted on the marker is the window itself, blanks included. *)
Example end_of_input_keeps_blanks :
  next (RegexSplitter match_line) 2
    {| printed_idx := 0; full_response := lit " Bye " |} END_OF_INPUT
  = Some ([lit " Bye "], {| printed_idx := 5; full_response := lit " Bye " |}).
Proof. reflexivity. Qed.

(** ** The delimiter example *)

(** C6: with the pattern of a lazy group up to a newline, the tokens
    "Hello", " world" and a newline, "Bye" and a newline, and then the marker
    make [next] yield nothing, then "Hello world", then "Bye", then nothing. *)
Theorem delimiter_example (fuel : nat) :
  let stream := [lit "Hello"; lit " world" ++ [newline];
                 lit "Bye" ++ [newline]; END_OF_INPUT] in
  ((λ calls, calls.*1)
     <$> feed (RegexSplitter match_line) (2 + fuel) new_splitter stream)
  = Some [[]; [lit "Hello world"]; [lit "Bye"]; []]
  ∧ request_by_message (RegexSplitter match_line) (2 + fuel) stream
    = Some [lit "Hello world"; lit "Bye"]
  ∧ (calls ← feed (RegexSplitter match_line) (2 + fuel) new_splitter
               (take 3 stream);
     unseen_window <$> last (calls.*2)) = Some [].
Proof. split_and!; reflexivity. Qed.

(** ** [SentenceSplitter.partition] *)

Lemma sentence_to_print_stripped (span : TextSpan) :
  one_newline_stripped (sent span) (sentence_to_print span).
Proof.
  unfold sentence_to_print, one_newline_stripped.
  destruct (Py.endswith (sent span) [newline]) eqn:Hends.
  - apply endswith_char in Hends as [body Hbody]. left. exists body.
    split; [done |]. rewrite Hbody. apply drop_last_snoc.
  - right. split; [| done]. intros body Hbody.
    assert (Py.endswith (sent span) [newline] = true) as Htrue
      by (apply endswith_char; eauto).
    congruence.
Qed.

Lemma sentence_loop_stripped (segments : list TextSpan) :
  Forall2 (λ span unit, one_newline_stripped (sent span) unit)
    segments (sentence_loop segments).
Proof.
  induction segments as [|span rest IH]; simpl; constructor; [| done].
  apply sentence_to_print_stripped.
Qed.

Lemma all_but_last_snoc {A} (complete : list A) (final : A) :
  all_but_last (complete ++ [final]) = complete.
Proof.
  unfold all_but_last. rewrite length_app. simpl.
  replace (length complete + 1 - 1)%nat with (length complete) by lia.
  by rewrite take_app_length.
Qed.

(** C7: when the segmenter answers the spans [complete] followed by [final],
    [partition] yields one unit per span of [complete], in order, each the
    span's sentence with one trailing newline stripped if it has one; [final]
    is not emitted, and the cursor advances by the start offset of [final].
    When the segmenter answers no span, nothing is yielded and the splitter
    is unchanged. *)
Theorem sentence_partition_spec (segmenter : Segmenter)
    (self : MessageSplitter) (unseen : str) :
  (∀ complete final,
     segmenter unseen = complete ++ [final] →
     ∃ yielded self',
       sentence_partition segmenter self unseen = (yielded, self')
       ∧ printed_idx self' = (printed_idx self + start final)%Z
       ∧ full_response self' = full_response self
       ∧ Forall2 (λ span unit, one_newline_stripped (sent span) unit)
           complete yielded)
  ∧ (segmenter unseen = [] →
     sentence_partition segmenter self unseen = ([], self)).
Proof.
  split.
  - intros complete final Hseg. unfold sentence_partition. rewrite Hseg.
    rewrite last_snoc, all_but_last_snoc.
    eexists _, _. split; [reflexivity |].
    split_and!; [done | done | apply sentence_loop_stripped].
  - intros Hseg. unfold sentence_partition. by rewrite Hseg.
Qed.

Lemma sentence_partition_spec_witness :
  ∃ yielded self',
    sentence_partition full_stop_segmenter
      {| printed_idx := 4;
         full_response := lit "Hi. One." ++ [newline] ++ lit "Two.  Thr" |}
      (lit "One." ++ [newline] ++ lit "Two.  Thr")
    = (yielded, self')
    ∧ printed_idx self' = (4 + 11)%Z
    ∧ full_response self' = lit "Hi. One." ++ [newline] ++ lit "Two.  Thr"
    ∧ Forall2 (λ span unit, one_newline_stripped (sent span) unit)
        [mkSpan (lit "One." ++ [newline]) 0 5; mkSpan (lit "Two.  ") 5 11]
        yielded.
Proof.
  refine (proj1 (sentence_partition_spec full_stop_segmenter
                   {| printed_idx := 4;
                      full_response :=
                        lit "Hi. One." ++ [newline] ++ lit "Two.  Thr" |}
                   (lit "One." ++ [newline] ++ lit "Two.  Thr"))
            [mkSpan (lit "One." ++ [newline]) 0 5; mkSpan (lit "Two.  ") 5 11]
            (mkSpan (lit "Thr") 11 14) _).
  reflexivity.
Defined.

(** Only one newline goes, and other trailing blanks stay. *)
Example sentence_partition_units :
  sentence_partition full_stop_segmenter new_splitter
    (lit "One." ++ [newline; newline] ++ lit "Two.  Thr")
  = ([lit "One." ++ [newline]; lit "Two.  "],
     {| printed_idx := 12; full_response := [] |}).
Proof. reflexivity. Qed.

(** ** Termination of [RegexSplitter.partition] *)

Lemma length_unseen_window_advance (self : MessageSplitter) (n : Z) :
  0 ≤ printed_idx self → 1 ≤ n ≤ Py.len (unseen_window self) →
  (length (unseen_window (advance self n)) < length (unseen_window self))%nat.
Proof.
  unfold unseen_window, Py.len. simpl. intros Hi Hn.
  rewrite !slice_from_drop in * by lia. rewrite !length_drop in *. lia.
Qed.

Lemma regex_partition_S (pattern : Pattern) fuel self unseen :
  regex_partition pattern (S fuel) self unseen
  = match pattern unseen with
    | None => Some ([], self)
    | Some m =>
        '(rest, s) ← regex_partition pattern fuel (advance self (match_end m))
                       (unseen_window (advance self (match_end m)));
        Some (group1 m :: rest, s)
    end.
Proof. reflexivity. Qed.

(** With the windows recomputed from the cursor, the loop ends within one
    test more than the window has characters, and each unit it yields has
    moved the cursor by one at least. *)
Lemma regex_partition_terminates_window (pattern : Pattern) :
  pattern_consumes pattern →
  ∀ fuel self,
    0 ≤ printed_idx self →
    (length (unseen_window self) < fuel)%nat →
    ∃ yielded self',
      regex_partition pattern fuel self (unseen_window self)
      = Some (yielded, self')
      ∧ printed_idx self + Z.of_nat (length yielded) ≤ printed_idx self'.
Proof.
  intros Hpat. induction fuel as [|fuel IH]; intros self Hi Hfuel; [lia |].
  rewrite regex_partition_S.
  destruct (pattern (unseen_window self)) as [m|] eqn:Hm.
  - apply Hpat in Hm.
    destruct (IH (advance self (match_end m))) as (rest & s & Hrec & Hle).
    + simpl. lia.
    + pose proof (length_unseen_window_advance self (match_end m) Hi Hm). lia.
    + rewrite Hrec. simpl. eexists _, _. split; [reflexivity |].
      simpl in *. lia.
  - eexists _, _. split; [reflexivity |]. simpl. lia.
Qed.

Lemma length_unseen_window_le (self : MessageSplitter) :
  (length (unseen_window self) ≤ length (full_response self))%nat.
Proof. unfold unseen_window, Py.slice_from. rewrite length_drop. lia. Qed.

Lemma regex_partition_terminates (pattern : Pattern) :
  pattern_consumes pattern →
  ∀ self unseen,
    0 ≤ printed_idx self →
    ∃ fuel yielded self',
      regex_partition pattern fuel self unseen = Some (yielded, self')
      ∧ printed_idx self + Z.of_nat (length yielded) ≤ printed_idx self'.
Proof.
  intros Hpat self unseen Hi.
  exists (S (S (length (full_response self)))). rewrite regex_partition_S.
  destruct (pattern unseen) as [m|] eqn:Hm.
  - apply Hpat in Hm.
    destruct (regex_partition_terminates_window pattern Hpat
                (S (length (full_response self))) (advance self (match_end m)))
      as (rest & s & Hrec & Hle).
    + simpl. lia.
    + pose proof (length_unseen_window_le (advance self (match_end m))) as H.
      simpl in H. lia.
    + rewrite Hrec. simpl. eexists _, _. split; [reflexivity |].
      simpl in *. lia.
  - eexists _, _. split; [reflexivity |]. simpl. lia.
Qed.

(** A match of length zero leaves cursor and window as they were, so the
    next test finds the same match: no bound on the tests is enough. *)
Lemma regex_partition_spins (pattern : Pattern) (self : MessageSplitter)
    (m : Match) :
  pattern (unseen_window self) = Some m → match_end m = 0 →
  ∀ fuel, regex_partition pattern fuel self (unseen_window self) = None.
Proof.
  intros Hm Hzero. induction fuel as [|fuel IH]; [done |].
  rewrite regex_partition_S, Hm, Hzero, advance_zero, IH. done.
Qed.

(** C9: if every match of the pattern consumes at least one character of
    its window, [partition] returns for every splitter and every window, and
    each unit it yielded moved the cursor forward; if instead the pattern
    matches the window of the splitter with length zero, [partition] never
    returns. *)
Theorem regex_partition_termination (pattern : Pattern) :
  (pattern_consumes pattern →
   ∀ self unseen,
     0 ≤ printed_idx self →
     ∃ fuel yielded self',
       regex_partition pattern fuel self unseen = Some (yielded, self')
       ∧ printed_idx self + Z.of_nat (length yielded) ≤ printed_idx self')
  ∧ (∀ self m,
       pattern (unseen_window self) = Some m → match_end m = 0 →
       ∀ fuel, regex_partition pattern fuel self (unseen_window self) = None).
Proof.
  split.
  - apply regex_partition_terminates.
  - apply regex_partition_spins.
Qed.

Lemma regex_partition_termination_witness :
  (∃ fuel yielded self',
     regex_partition match_line fuel
       {| printed_idx := 0; full_response := lit "a" ++ [newline] |}
       (lit "a" ++ [newline])
     = Some (yielded, self')
     ∧ 0 + Z.of_nat (length yielded) ≤ printed_idx self')
  ∧ (∀ fuel,
       regex_partition match_dot_star fuel
         {| printed_idx := 1; full_response := lit "a" ++ [newline] |}
         (unseen_window
            {| printed_idx := 1; full_response := lit "a" ++ [newline] |})
       = None).
Proof.
  split.
  - refine (proj1 (regex_partition_termination match_line) match_line_end
              {| printed_idx := 0; full_response := lit "a" ++ [newline] |}
              (lit "a" ++ [newline]) _).
    simpl. lia.
  - refine (proj2 (regex_partition_termination match_dot_star)
              {| printed_idx := 1; full_response := lit "a" ++ [newline] |}
              {| group1 := []; match_end := 0 |} _ _); reflexivity.
Defined.

(** The greedy pattern spins even on text it first consumes: once the cursor
    has reached the end of the text, the empty window matches with length
    zero. *)
Example greedy_pattern_spins_after_progress (fuel : nat) :
  next (RegexSplitter match_dot_star) fuel new_splitter (lit "abc") = None.
Proof.
  destruct fuel as [|fuel]; [done |].
  unfold next. simpl.
  change (regex_partition match_dot_star fuel
            {| printed_idx := 3; full_response := lit "abc" |}
            (unseen_window {| printed_idx := 3; full_response := lit "abc" |})
          ≫= (λ '(rest, self), Some (lit "abc" :: rest, self)) = None).
  by erewrite regex_partition_spins.
Qed.

(** ** [OobaClient.request_as_grouped_tokens] *)

Lemma truthy_concat_nonempty (pending : list str) :
  Forall (λ t, t ≠ END_OF_INPUT) pending →
  Py.truthy (concat pending) = false → pending = [].
Proof.
  intros Hne Hfalse. destruct pending as [|t pending]; [done |].
  inversion Hne as [|? ? Ht _]; subst. destruct t; [done |]. discriminate.
Qed.

Lemma grouped_loop_token (interval last_response : Z) (tokens : str)
    (arrival : Arrival) (stream : list Arrival) :
  token arrival ≠ END_OF_INPUT →
  grouped_loop interval last_response tokens (arrival :: stream)
  = if decide (now arrival < last_response + interval) then
      grouped_loop interval last_response (tokens ++ token arrival) stream
    else
      Windowed (now arrival) (tokens ++ token arrival)
        :: grouped_loop interval (after arrival) [] stream.
Proof. intros H. simpl. by rewrite decide_False. Qed.

Lemma grouped_loop_marker (interval last_response : Z) (tokens : str)
    (arrival : Arrival) (stream : list Arrival) :
  token arrival = END_OF_INPUT →
  grouped_loop interval last_response tokens (arrival :: stream)
  = if Py.truthy tokens then [Final tokens] else [].
Proof. intros H. simpl. by rewrite decide_True. Qed.

(** The released texts are the tokens cut into consecutive groups; the
    buffer is the group that is still open. *)
Lemma grouped_loop_groups (interval : Z) (eos : Arrival) :
  token eos = END_OF_INPUT →
  ∀ toks last_response pending,
    Forall (λ t, t ≠ END_OF_INPUT) pending →
    Forall (λ a, token a ≠ END_OF_INPUT) toks →
    ∃ groups,
      concat groups = pending ++ (token <$> toks)
      ∧ batch_text <$> grouped_loop interval last_response (concat pending)
                         (toks ++ [eos])
        = Py.join <$> groups.
Proof.
  intros Heos. unfold Py.join. induction toks as [|a toks IH];
    intros last_response pending Hpending Htoks.
  - rewrite app_nil_l, grouped_loop_marker by done. rewrite fmap_nil, app_nil_r.
    destruct (Py.truthy (concat pending)) eqn:Htruthy.
    + exists [pending]. simpl. by rewrite app_nil_r.
    + apply truthy_concat_nonempty in Htruthy as ->; [| done]. by exists [].
  - inversion Htoks as [|? ? Ha Htoks']; subst.
    rewrite <- app_comm_cons, grouped_loop_token by done.
    assert (concat pending ++ token a = concat (pending ++ [token a])) as Hbuf.
    { rewrite concat_app. simpl. by rewrite app_nil_r. }
    case_decide.
    + rewrite Hbuf.
      destruct (IH last_response (pending ++ [token a]))
        as (groups & Hcat & Hout);
        [by apply Forall_app; split; [| constructor] | done |].
      exists groups. split; [| done].
      by rewrite Hcat, <- app_assoc.
    + destruct (IH (after a) []) as (groups & Hcat & Hout); [done | done |].
      change (concat []) with (@nil ascii) in Hout.
      exists ((pending ++ [token a]) :: groups). split.
      * simpl. by rewrite Hcat, <- app_assoc.
      * simpl. f_equal; [by rewrite Hbuf | apply Hout].
Qed.

(** Without the marker no batch comes from the [yield] under the
    end-of-input test; with it, that [yield] adds at most one batch, after
    all the others. *)
Lemma grouped_loop_final (interval : Z) (eos : Arrival) :
  token eos = END_OF_INPUT →
  ∀ toks last_response tokens,
    Forall (λ a, token a ≠ END_OF_INPUT) toks →
    Forall (λ b, is_final b = false)
      (grouped_loop interval last_response tokens toks)
    ∧ (grouped_loop interval last_response tokens (toks ++ [eos])
       = grouped_loop interval last_response tokens toks
       ∨ ∃ left_over,
           grouped_loop interval last_response tokens (toks ++ [eos])
           = grouped_loop interval last_response tokens toks
             ++ [Final left_over]).
Proof.
  intros Heos. induction toks as [|a toks IH];
    intros last_response tokens Htoks.
  - rewrite app_nil_l, grouped_loop_marker by done. simpl.
    split; [constructor |]. destruct (Py.truthy tokens); eauto.
  - inversion Htoks as [|? ? Ha Htoks']; subst.
    rewrite <- app_comm_cons, !grouped_loop_token by done. case_decide.
    + by apply IH.
    + destruct (IH (after a) [] Htoks') as [Hbefore Hout].
      split; [by constructor |].
      destruct Hout as [-> | [left_over ->]]; eauto.
Qed.

Lemma join_groups (groups : list (list str)) :
  Py.join (Py.join <$> groups) = Py.join (concat groups).
Proof.
  unfold Py.join. induction groups as [|g groups IH]; [done |].
  cbn. rewrite concat_app. f_equal. apply IH.
Qed.

Lemma grouped_tokens_groups (interval started : Z)
    (toks : list Arrival) (eos : Arrival) :
  Forall (λ a, token a ≠ END_OF_INPUT) toks →
  token eos = END_OF_INPUT →
  ∃ groups,
    concat groups = token <$> toks
    ∧ batch_text <$> request_as_grouped_tokens interval started (toks ++ [eos])
      = Py.join <$> groups.
Proof.
  intros Htoks Heos.
  destruct (grouped_loop_groups interval eos Heos toks started [])
    as (groups & Hcat & Hout); [done | done |].
  by exists groups.
Qed.

Lemma grouped_tokens_join (interval started : Z)
    (toks : list Arrival) (eos : Arrival) :
  Forall (λ a, token a ≠ END_OF_INPUT) toks →
  token eos = END_OF_INPUT →
  Py.join (batch_text
             <$> request_as_grouped_tokens interval started (toks ++ [eos]))
  = Py.join (token <$> toks).
Proof.
  intros Htoks Heos.
  destruct (grouped_tokens_groups interval started toks eos Htoks Heos)
    as (groups & Hcat & Hout).
  rewrite Hout, <- Hcat. apply join_groups.
Qed.

(** C8: on a stream of ordinary tokens closed by the marker, under any
    clock readings, the batches are the tokens cut into consecutive groups,
    in order, so that their concatenation is the concatenation of the
    tokens; and the [yield] under the end-of-input test contributes no batch
    before the marker is received and at most one, the last, when it is. *)
Theorem grouped_tokens_guarantee (interval started : Z)
    (toks : list Arrival) (eos : Arrival) :
  Forall (λ a, token a ≠ END_OF_INPUT) toks →
  token eos = END_OF_INPUT →
  let before := request_as_grouped_tokens interval started toks in
  let out := request_as_grouped_tokens interval started (toks ++ [eos]) in
  (∃ groups,
     concat groups = token <$> toks ∧ batch_text <$> out = Py.join <$> groups)
  ∧ Py.join (batch_text <$> out) = Py.join (token <$> toks)
  ∧ Forall (λ b, is_final b = false) before
  ∧ (out = before ∨ ∃ left_over, out = before ++ [Final left_over]).
Proof.
  intros Htoks Heos before out. split_and!.
  - by apply grouped_tokens_groups.
  - by apply grouped_tokens_join.
  - by apply (grouped_loop_final interval eos Heos toks started []).
  - by apply (grouped_loop_final interval eos Heos toks started []).
Qed.

Lemma grouped_tokens_guarantee_witness :
  Py.join (batch_text <$>
             request_as_grouped_tokens 100 0
               ([mkArrival (lit "a") 0 0; mkArrival (lit "b") 130 131;
                 mkArrival (lit "c") 140 140]
                ++ [mkArrival END_OF_INPUT 0 0]))
  = Py.join [lit "a"; lit "b"; lit "c"].
Proof.
  refine (proj1 (proj2 (grouped_tokens_guarantee 100 0
                          [mkArrival (lit "a") 0 0; mkArrival (lit "b") 130 131;
                           mkArrival (lit "c") 140 140]
                          (mkArrival END_OF_INPUT 0 0) _ _))).
  - repeat constructor; discriminate.
  - reflexivity.
Defined.

(** When the stream stops without the marker, what is still buffered is not
    released. *)
Example grouped_tokens_without_marker :
  request_as_grouped_tokens 100 0
    [mkArrival (lit "a") 0 0; mkArrival (lit "b") 130 131;
     mkArrival (lit "c") 140 140]
  = [Windowed 130 (lit "ab")].
Proof. reflexivity. Qed.

Lemma join_filter_nonempty (parts : list str) :
  Py.join (filter (λ t, t ≠ END_OF_INPUT) parts) = Py.join parts.
Proof.
  unfold Py.join. induction parts as [|t parts IH]; [done |].
  rewrite filter_cons. case_decide as Ht; simpl.
  - by rewrite IH.
  - by rewrite Ht, IH.
Qed.

(** Batched mode over raw mode: when the events finish cleanly, the batches
    put together are the text deltas put together, whatever the clock. *)
Lemma grouped_tokens_of_clean_finish (interval started : Z)
    (before after : list Event) (final : Event) (reason : str)
    (stream : list Arrival) :
  Forall (λ e, finish_reason e = None) before →
  finish_reason final = Some reason →
  token <$> stream = (request_by_token (before ++ final :: after) 0).1 →
  Py.join (batch_text <$> request_as_grouped_tokens interval started stream)
  = Py.join (text <$> before ++ [final]).
Proof.
  intros Hbefore Hfinal Hstream.
  rewrite (request_by_token_finished _ _ _ _ _ Hbefore Hfinal) in Hstream.
  simpl in Hstream.
  apply fmap_app_inv in Hstream as (toks & tail & Htoks & Htail & ->).
  destruct tail as [|eos [|? ?]]; [done | | done].
  injection Htail as Heos.
  rewrite grouped_tokens_join; [| | done].
  - by rewrite <- Htoks, join_filter_nonempty.
  - apply Forall_forall. intros a Ha.
    assert (token a ∈ token <$> toks) as Hin by (by apply list_elem_of_fmap_2).
    rewrite <- Htoks in Hin. by apply list_elem_of_filter in Hin as [? _].
Qed.

(** C2, as the code has it: the gate is tested only when a token arrives.
    With the clock at 0 when the request starts, the tokens at 0, 30, 60 and
    90 stay buffered, the token at 150 opens the gate and leaves with them in
    the one batch "abcde", and the marker finds the buffer empty. *)
Theorem batching_example (after_a after_b after_c after_d after_e : Z) :
  request_as_grouped_tokens 100 0
    (example_arrivals after_a after_b after_c after_d after_e)
  = [Windowed 150 (lit "abcde")].
Proof. reflexivity. Qed.

(** C2 as stated fails: no batch "abcd" is released at 100 or later, and no
    batch is left for the marker. *)
Lemma batching_example_as_stated_fails :
  request_as_grouped_tokens 100 0 (example_arrivals 0 30 60 90 150)
  = [Windowed 150 (lit "abcde")]
  ∧ ¬ ∃ t, 100 ≤ t
          ∧ request_as_grouped_tokens 100 0 (example_arrivals 0 30 60 90 150)
            = [Windowed t (lit "abcd"); Final (lit "e")].
Proof. split; [reflexivity |]. intros (t & _ & H). discriminate H. Qed.

(** Whatever the clock showed when the request started and after each
    release, a batch "abcd" can only leave when "d" arrives, at 90. *)
Lemma batching_example_abcd_leaves_at_90 (started : Z)
    (after_a after_b after_c after_d after_e t : Z) (later : list Batch) :
  request_as_grouped_tokens 100 started
    (example_arrivals after_a after_b after_c after_d after_e)
  = Windowed t (lit "abcd") :: later →
  t = 90.
Proof.
  unfold request_as_grouped_tokens, example_arrivals. simpl.
  repeat (case_decide; simpl); intros Hout; by simplify_eq.
Qed.

Lemma batching_example_never_as_stated (started : Z)
    (after_a after_b after_c after_d after_e t : Z) :
  100 ≤ t →
  request_as_grouped_tokens 100 started
    (example_arrivals after_a after_b after_c after_d after_e)
  ≠ [Windowed t (lit "abcd"); Final (lit "e")].
Proof.
  intros Ht Hout. apply batching_example_abcd_leaves_at_90 in Hout. lia.
Qed.

(** ** [TemplateMessageFormatter._validate_format_string] *)

Local Close Scope Z_scope.

Lemma value_plain (t : TemplateToken) : plain_name (value t).
Proof.
  destruct t; unfold plain_name;
    repeat (constructor; [split; [discriminate | reflexivity] |]);
    constructor.
Qed.

Lemma value_keyword (t : TemplateToken) : positional (value t) = false.
Proof. by destruct t. Qed.

Lemma value_inj (t t' : TemplateToken) : value t = value t' → t = t'.
Proof. destruct t, t'; intros H; first [reflexivity | discriminate H]. Qed.

Lemma plain_lookup (v : str) (d : nat) (c : ascii) :
  plain_name v → v !! d = Some c → c ≠ close_brace ∧ c ≠ open_brace.
Proof.
  intros Hplain Hd. eapply Forall_lookup_1 in Hplain as [Hclose Hspecial]; [| done].
  split; [done |]. intros ->. discriminate Hspecial.
Qed.

Lemma length_token_str (t : TemplateToken) :
  length (token_str t) = length (value t) + 2.
Proof. unfold token_str. rewrite !length_app. simpl. lia. Qed.

Lemma slice_token_iff (format_str : str) (i : nat) (t : TemplateToken) :
  slice format_str i (i + length (value t) + 1 + 1)
  = [open_brace] ++ value t ++ [close_brace]
  ↔ occurs_at format_str i t.
Proof.
  unfold slice, occurs_at. fold (token_str t).
  replace (i + length (value t) + 1 + 1 - i) with (length (token_str t))
    by (rewrite length_token_str; lia).
  split.
  - intros H. exists (drop (length (token_str t)) (drop i format_str)).
    rewrite <- H at 1. by rewrite take_drop.
  - intros [rest ->]. by rewrite take_app_length.
Qed.

(** What stands at each index of an occurrence. *)
Lemma occurs_at_lookup (format_str : str) (i : nat) (t : TemplateToken) :
  occurs_at format_str i t →
  format_str !! i = Some open_brace
  ∧ format_str !! (i + length (value t) + 1) = Some close_brace
  ∧ ∀ d, d < length (value t) → format_str !! (i + 1 + d) = value t !! d.
Proof.
  intros [rest Hrest].
  assert (token_str t ++ rest
          = open_brace :: (value t ++ close_brace :: rest)) as Hshape.
  { unfold token_str. simpl. by rewrite <- app_assoc. }
  assert (∀ k, format_str !! (i + k)
               = (open_brace :: (value t ++ close_brace :: rest)) !! k) as Hk.
  { intros k. by rewrite <- Hshape, <- Hrest, lookup_drop. }
  split_and!.
  - specialize (Hk 0). rewrite Nat.add_0_r in Hk. by rewrite Hk.
  - replace (i + length (value t) + 1) with (i + S (length (value t))) by lia.
    rewrite Hk. simpl. by apply list_lookup_middle.
  - intros d Hd. replace (i + 1 + d) with (i + S d) by lia.
    rewrite Hk. simpl. by apply lookup_app_l.
Qed.

(** At one index at most one token occurs. *)
Lemma occurs_at_unique (format_str : str) (i : nat) (t t' : TemplateToken) :
  occurs_at format_str i t → occurs_at format_str i t' → t = t'.
Proof.
  intros Ht Ht'.
  destruct (occurs_at_lookup _ _ _ Ht) as (_ & Hclose & Hname).
  destruct (occurs_at_lookup _ _ _ Ht') as (_ & Hclose' & Hname').
  assert (∀ s s' : TemplateToken,
            (format_str !! (i + length (value s) + 1) = Some close_brace) →
            (∀ d, d < length (value s') →
                  format_str !! (i + 1 + d) = value s' !! d) →
            ¬ length (value s) < length (value s')) as Hshort.
  { intros s s' Hc Hn Hlt. specialize (Hn (length (value s)) Hlt).
    replace (i + 1 + length (value s)) with (i + length (value s) + 1) in Hn
      by lia.
    rewrite Hc in Hn. symmetry in Hn.
    by destruct (plain_lookup _ _ _ (value_plain s') Hn). }
  pose proof (Hshort t t' Hclose Hname').
  pose proof (Hshort t' t Hclose' Hname).
  apply value_inj, list_eq. intros d.
  destruct (decide (d < length (value t))) as [Hd | Hd].
  - rewrite <- Hname, <- Hname' by lia. done.
  - rewrite !lookup_ge_None_2 by lia. done.
Qed.

Lemma elem_of_find_all_ch_from (i : nat) (string : str) (char : ascii) (k : nat) :
  k ∈ find_all_ch_from i string char
  ↔ ∃ d, k = i + d ∧ string !! d = Some char.
Proof.
  revert i. induction string as [|letter string IH]; intros i; simpl.
  - rewrite elem_of_nil. split; [done | by intros (d & _ & ?)].
  - assert ((∃ d, k = S i + d ∧ string !! d = Some char)
            ↔ ∃ d, k = i + S d ∧ (letter :: string) !! S d = Some char) as Hshift.
    { split; intros (d & -> & Hd); exists d; (split; [lia | done]). }
    case_decide as Hletter.
    + rewrite elem_of_cons, IH, Hshift. split.
      * intros [-> | (d & -> & Hd)]; [| by eauto].
        exists 0. split; [lia | by subst].
      * intros ([|d] & -> & Hd); [left; lia | right; eauto].
    + rewrite IH, Hshift. split.
      * intros (d & -> & Hd). eauto.
      * intros ([|d] & -> & Hd); [simpl in Hd; congruence | eauto].
Qed.

Lemma elem_of_find_all_ch (string : str) (char : ascii) (k : nat) :
  k ∈ find_all_ch string char ↔ string !! k = Some char.
Proof.
  unfold find_all_ch. rewrite elem_of_find_all_ch_from. split.
  - by intros (d & -> & Hd).
  - intros Hk. by exists k.
Qed.

Lemma find_allowed_arg_Some (format_str : str) (i : nat)
    (allowed : list TemplateToken) (idx_end : nat) :
  find_allowed_arg format_str i allowed = Some idx_end →
  ∃ t, t ∈ allowed ∧ occurs_at format_str i t
       ∧ idx_end = i + length (value t) + 1.
Proof.
  induction allowed as [|t allowed IH]; simpl; [done |].
  case_decide as Hfits.
  - intros [= <-]. exists t. rewrite slice_token_iff in Hfits.
    split_and!; [by left | done | done].
  - intros H. destruct (IH H) as (t' & Hin & Hocc & ->).
    exists t'. split_and!; [by right | done | done].
Qed.

Lemma find_allowed_arg_None (format_str : str) (i : nat)
    (allowed : list TemplateToken) :
  find_allowed_arg format_str i allowed = None
  ↔ ∀ t, t ∈ allowed → ¬ occurs_at format_str i t.
Proof.
  induction allowed as [|t allowed IH]; simpl.
  - split; [| done]. intros _ t Hin. by apply elem_of_nil in Hin.
  - case_decide as Hfits; rewrite slice_token_iff in Hfits.
    + split; [done |]. intros H. exfalso. apply (H t); [by left | done].
    + rewrite IH. split.
      * intros H t' [-> | Hin]%elem_of_cons; [done | by apply H].
      * intros H t' Hin. apply H. by right.
Qed.

Lemma open_brace_loop_Some (format_str : str) (allowed : list TemplateToken) :
  ∀ opens initial closing,
    open_brace_loop format_str allowed opens initial = Some closing →
    (∀ i, i ∈ opens → is_Some (find_allowed_arg format_str i allowed))
    ∧ ∀ j, j ∈ closing
           ↔ j ∈ initial
             ∨ ∃ i, i ∈ opens ∧ find_allowed_arg format_str i allowed = Some j.
Proof.
  induction opens as [|i opens IH]; intros initial closing H; simpl in H.
  - simplify_eq. split; [by intros i Hin%elem_of_nil |].
    intros j. split; [by left |]. intros [? | (i & Hin%elem_of_nil & _)]; done.
  - destruct (find_allowed_arg format_str i allowed) as [idx_end|] eqn:Hfind;
      [| done].
    simpl in H. destruct (IH _ _ H) as [Hall Hclosing]. split.
    + intros i' [-> | Hin]%elem_of_cons; [by rewrite Hfind | by apply Hall].
    + intros j. rewrite Hclosing, elem_of_union, elem_of_singleton. split.
      * intros [[-> | Hj] | (i' & Hin & Hi')].
        -- right. exists i. split; [by left | done].
        -- by left.
        -- right. exists i'. split; [by right | done].
      * intros [Hj | (i' & [-> | Hin]%elem_of_cons & Hi')].
        -- left. by right.
        -- left. left. congruence.
        -- right. eauto.
Qed.

Lemma open_brace_loop_None (format_str : str) (allowed : list TemplateToken) :
  ∀ opens initial,
    open_brace_loop format_str allowed opens initial = None →
    ∃ i, i ∈ opens ∧ find_allowed_arg format_str i allowed = None.
Proof.
  induction opens as [|i opens IH]; intros initial H; simpl in H; [done |].
  destruct (find_allowed_arg format_str i allowed) as [idx_end|] eqn:Hfind.
  - simpl in H. destruct (IH _ H) as (i' & Hin & Hi').
    exists i'. split; [by right | done].
  - exists i. split; [by left | done].
Qed.

Lemma close_brace_loop_true (closes : list nat) (closing : gset nat) :
  close_brace_loop closes closing = true ↔ ∀ j, j ∈ closes → j ∈ closing.
Proof.
  induction closes as [|j closes IH]; simpl.
  - split; [| done]. by intros _ j Hin%elem_of_nil.
  - case_decide as Hj.
    + split; [done |]. intros H. exfalso. apply Hj, H. by left.
    + rewrite IH. split.
      * intros H j' [-> | Hin]%elem_of_cons; [| by apply H].
        by destruct (decide (j ∈ closing)).
      * intros H j' Hin. apply H. by right.
Qed.

Lemma close_brace_loop_false (closes : list nat) (closing : gset nat) :
  close_brace_loop closes closing = false →
  ∃ j, j ∈ closes ∧ j ∉ closing.
Proof.
  induction closes as [|j closes IH]; simpl; [done |].
  case_decide as Hj.
  - intros _. exists j. split; [by left | done].
  - intros H. destruct (IH H) as (j' & Hin & Hj').
    exists j'. split; [by right | done].
Qed.

(** When the first loop has passed, the set holds exactly the indices of
    the braces that close an allowed token. *)
Lemma closing_indices (format_str : str) (allowed : list TemplateToken)
    (closing : gset nat) :
  open_brace_loop format_str allowed (find_all_ch format_str open_brace) ∅
  = Some closing →
  ∀ j, j ∈ closing ↔ ends_allowed format_str allowed j.
Proof.
  intros H. apply open_brace_loop_Some in H as [Hall Hclosing]. intros j.
  rewrite Hclosing. split.
  - intros [Hj | (i & _ & Hfind)]; [by apply elem_of_empty in Hj |].
    apply find_allowed_arg_Some in Hfind as (t & Hin & Hocc & ->).
    by exists i, t.
  - intros (i & t & Hin & Hocc & ->). right. exists i.
    assert (i ∈ find_all_ch format_str open_brace) as Hopen.
    { apply elem_of_find_all_ch. by apply occurs_at_lookup in Hocc as [? _]. }
    split; [done |].
    destruct (Hall i Hopen) as [idx_end Hfind]. rewrite Hfind.
    apply find_allowed_arg_Some in Hfind as (t' & _ & Hocc' & ->).
    by rewrite (occurs_at_unique _ _ _ _ Hocc Hocc').
Qed.

Lemma validate_returns (format_str : str) (allowed : list TemplateToken) :
  _validate_format_string format_str allowed = Returns →
  braces_allowed format_str allowed.
Proof.
  unfold _validate_format_string.
  destruct (open_brace_loop _ _ _ _) as [closing|] eqn:Hopen; [| done].
  destruct (close_brace_loop _ _) eqn:Hclose; [| done]. intros _.
  pose proof (closing_indices _ _ _ Hopen) as Hclosing.
  apply open_brace_loop_Some in Hopen as [Hall _].
  rewrite close_brace_loop_true in Hclose. split.
  - intros i Hi. apply elem_of_find_all_ch in Hi.
    destruct (Hall i Hi) as [idx_end Hfind].
    apply find_allowed_arg_Some in Hfind as (t & Hin & Hocc & _).
    by exists t.
  - intros j Hj. apply elem_of_find_all_ch in Hj. by apply Hclosing, Hclose.
Qed.

Lemma validate_raises (format_str : str) (allowed : list TemplateToken) :
  _validate_format_string format_str allowed = RaisesValueError →
  (∃ i, format_str !! i = Some open_brace
        ∧ ¬ begins_allowed format_str allowed i)
  ∨ (∃ j, format_str !! j = Some close_brace
          ∧ ¬ ends_allowed format_str allowed j).
Proof.
  unfold _validate_format_string.
  destruct (open_brace_loop _ _ _ _) as [closing|] eqn:Hopen.
  - destruct (close_brace_loop _ _) eqn:Hclose; [done |]. intros _. right.
    pose proof (closing_indices _ _ _ Hopen) as Hclosing.
    apply close_brace_loop_false in Hclose as (j & Hin & Hj).
    exists j. split; [by apply elem_of_find_all_ch in Hin |].
    by rewrite <- Hclosing.
  - intros _. left. apply open_brace_loop_None in Hopen as (i & Hin & Hfind).
    exists i. split; [by apply elem_of_find_all_ch in Hin |].
    intros (t & Ht & Hocc). rewrite find_allowed_arg_None in Hfind.
    by apply (Hfind t).
Qed.

(** ** [TemplateMessageFormatter.format] on a validated template *)

(** Inside a field, a plain name is read up to the closing brace. *)
Lemma str_format_field (kwargs : gmap str str) (v : str) :
  plain_name v →
  ∀ name rest,
    str_format kwargs (Some name) (v ++ close_brace :: rest)
    = (replacement ← get_value kwargs (name ++ v);
       later ← str_format kwargs None rest;
       Some (replacement ++ later)).
Proof.
  induction 1 as [|c v [Hclose Hspecial] _ IH]; intros name rest;
    cbn [str_format app].
  - rewrite decide_True by done. by rewrite app_nil_r.
  - rewrite decide_False by done. rewrite Hspecial, IH.
    by rewrite <- app_assoc.
Qed.

Lemma str_format_token (kwargs : gmap str str) (t : TemplateToken) (rest : str) :
  str_format kwargs None (token_str t ++ rest)
  = (replacement ← kwargs !! value t;
     later ← str_format kwargs None rest;
     Some (replacement ++ later)).
Proof.
  pose proof (value_plain t) as Hplain.
  assert (token_str t ++ rest = open_brace :: (value t ++ close_brace :: rest))
    as ->.
  { unfold token_str. simpl. by rewrite <- app_assoc. }
  destruct (value t) as [|c v] eqn:Hv; [by destruct t |].
  inversion Hplain as [|? ? [Hclose Hspecial] Hrest]; subst.
  assert (c ≠ open_brace) as Hopen by (intros ->; discriminate Hspecial).
  cbn [str_format app]. rewrite decide_True by done.
  rewrite (decide_False (P := c = open_brace)) by done.
  rewrite (decide_False (P := c = close_brace)) by done.
  rewrite Hspecial, str_format_field by done. cbn [app]. rewrite <- Hv.
  unfold get_value. by rewrite value_keyword.
Qed.

Lemma str_format_pieces (kwargs : gmap str str) (allowed : list TemplateToken)
    (pieces : list Piece) :
  Forall (piece_allowed allowed) pieces →
  (∀ t, t ∈ allowed → is_Some (kwargs !! value t)) →
  str_format kwargs None (concat (written <$> pieces))
  = Some (concat (filled kwargs <$> pieces)).
Proof.
  intros Hpieces Hargs.
  induction Hpieces as [|p pieces Hp _ IH]; [done |].
  rewrite !fmap_cons. cbn [concat]. destruct p as [c | t]; simpl in Hp.
  - destruct Hp as [Hopen Hclose]. cbn [written filled app str_format].
    rewrite decide_False by done. rewrite decide_False by done.
    by rewrite IH.
  - cbn [written filled]. rewrite str_format_token, IH.
    destruct (Hargs t Hp) as [replacement ->]. done.
Qed.

Lemma between_tokens_text (format_str : str) (k : nat) (c : ascii) :
  between_tokens format_str k →
  format_str !! k = Some c → c ≠ open_brace →
  between_tokens format_str (S k).
Proof.
  intros Hk Hc Hopen i t Hocc Hi.
  destruct (decide (i = k)) as [-> | Hne].
  - apply occurs_at_lookup in Hocc as [Hi' _]. congruence.
  - specialize (Hk i t Hocc). lia.
Qed.

Lemma between_tokens_field (format_str : str) (k : nat) (t : TemplateToken) :
  between_tokens format_str k →
  occurs_at format_str k t →
  between_tokens format_str (k + length (token_str t)).
Proof.
  intros Hk Hocc i t' Hocc' Hi. rewrite length_token_str in *.
  destruct (decide (i < k)) as [Hlt | Hge].
  { specialize (Hk i t' Hocc' Hlt). lia. }
  destruct (decide (i = k)) as [-> | Hne].
  { rewrite (occurs_at_unique _ _ _ _ Hocc' Hocc). lia. }
  exfalso.
  apply occurs_at_lookup in Hocc as (_ & Hclose & Hname).
  apply occurs_at_lookup in Hocc' as (Hopen & _).
  destruct (decide (i = k + length (value t) + 1)) as [-> | Hne'].
  { rewrite Hclose in Hopen. discriminate Hopen. }
  specialize (Hname (i - k - 1)).
  replace (k + 1 + (i - k - 1)) with i in Hname by lia.
  rewrite Hopen in Hname. symmetry in Hname.
  assert (i - k - 1 < length (value t)) as Hd by lia.
  specialize (Hname Hd).
  by destruct (plain_lookup _ _ _ (value_plain t) Hname).
Qed.

(** A template whose braces are all allowed reads as pieces. *)
Lemma braces_allowed_pieces (format_str : str) (allowed : list TemplateToken) :
  braces_allowed format_str allowed →
  ∀ n k,
    length format_str - k ≤ n →
    between_tokens format_str k →
    ∃ pieces,
      drop k format_str = concat (written <$> pieces)
      ∧ Forall (piece_allowed allowed) pieces.
Proof.
  intros [Hopens Hcloses]. induction n as [|n IH]; intros k Hn Hk.
  { exists []. split; [| done]. apply drop_ge. lia. }
  destruct (format_str !! k) as [c|] eqn:Hc.
  2: { exists []. split; [| done]. apply drop_ge. by apply lookup_ge_None. }
  pose proof (lookup_lt_Some _ _ _ Hc) as Hlt.
  destruct (decide (c = open_brace)) as [-> | Hopen].
  - destruct (Hopens k Hc) as (t & Hin & Hocc).
    destruct (IH (k + length (token_str t))) as (pieces & Hdrop & Hpieces).
    + rewrite length_token_str. lia.
    + by apply between_tokens_field.
    + exists (Field t :: pieces). split; [| by constructor].
      rewrite fmap_cons. cbn [concat written]. rewrite <- Hdrop.
      destruct Hocc as [rest Hrest]. rewrite Hrest. f_equal.
      by rewrite <- drop_drop, Hrest, drop_app_length.
  - destruct (decide (c = close_brace)) as [-> | Hclose].
    + exfalso. destruct (Hcloses k Hc) as (i & t & _ & Hocc & ->).
      specialize (Hk i t Hocc). lia.
    + destruct (IH (S k)) as (pieces & Hdrop & Hpieces).
      * lia.
      * by eapply between_tokens_text.
      * exists (Text c :: pieces). split; [| by constructor].
        rewrite fmap_cons. cbn [concat written]. rewrite <- Hdrop.
        by apply drop_S.
Qed.

(** C10: validation raises exactly when some opening brace does not begin
    an allowed token in braces or some closing brace does not end one; and a
    template that [__init__] accepted reads as a sequence of characters
    other than braces and of allowed tokens in braces, which [format], given
    a value for every allowed token, copies and replaces respectively. *)
Theorem validate_format_string_spec (format_str : str)
    (allowed_args : list TemplateToken) :
  (_validate_format_string format_str allowed_args = RaisesValueError
   ↔ (∃ i, format_str !! i = Some open_brace
           ∧ ¬ begins_allowed format_str allowed_args i)
     ∨ (∃ j, format_str !! j = Some close_brace
             ∧ ¬ ends_allowed format_str allowed_args j))
  ∧ (new_formatter format_str allowed_args = None
     ↔ _validate_format_string format_str allowed_args = RaisesValueError)
  ∧ ∀ self,
      new_formatter format_str allowed_args = Some self →
      ∃ pieces,
        template self = concat (written <$> pieces)
        ∧ Forall (piece_allowed allowed_args) pieces
        ∧ ∀ format_args,
            (∀ t, t ∈ allowed_args → is_Some (format_args !! value t)) →
            format self format_args
            = Some (concat (filled format_args <$> pieces)).
Proof.
  split_and!.
  - split; [apply validate_raises |].
    destruct (_validate_format_string format_str allowed_args) eqn:Hv; [| done].
    apply validate_returns in Hv as [Hopens Hcloses].
    intros [(i & Hi & Hnot) | (j & Hj & Hnot)]; exfalso; eauto.
  - unfold new_formatter.
    by destruct (_validate_format_string format_str allowed_args).
  - intros self. unfold new_formatter.
    destruct (_validate_format_string format_str allowed_args) eqn:Hv; [| done].
    intros [= <-]. apply validate_returns in Hv.
    destruct (braces_allowed_pieces _ _ Hv (length format_str) 0)
      as (pieces & Hdrop & Hpieces); [lia | intros i t _ Hi; lia |].
    rewrite drop_0 in Hdrop. exists pieces. split_and!; [done | done |].
    intros format_args Hargs. unfold format. simpl. rewrite Hdrop.
    by eapply str_format_pieces.
Qed.

Lemma validate_format_string_spec_witness :
  let format_args : gmap str str :=
    {[ lit "USER_NAME" := lit "Bob"; lit "AI_NAME" := lit "Al" ]} in
  ∃ pieces,
    lit "Hi {USER_NAME}!" = concat (written <$> pieces)
    ∧ Forall (piece_allowed [AI_NAME; USER_NAME]) pieces
    ∧ format {| template := lit "Hi {USER_NAME}!";
                allowed_tokens := [AI_NAME; USER_NAME] |} format_args
      = Some (concat (filled format_args <$> pieces)).
Proof.
  intros format_args.
  destruct (proj2 (proj2 (validate_format_string_spec
                            (lit "Hi {USER_NAME}!") [AI_NAME; USER_NAME]))
              {| template := lit "Hi {USER_NAME}!";
                 allowed_tokens := [AI_NAME; USER_NAME] |} eq_refl)
    as (pieces & Hwritten & Hallowed & Hformat).
  exists pieces. split; [exact Hwritten |]. split; [exact Hallowed |].
  apply Hformat. intros t Hin.
  apply elem_of_cons in Hin as [-> | Hin]; [by eexists |].
  apply elem_of_cons in Hin as [-> | Hin]; [by eexists |].
  by apply elem_of_nil in Hin.
Defined.

Example validate_accepts :
  _validate_format_string (lit "Hi {USER_NAME}, I am {AI_NAME}.")
    [AI_NAME; USER_NAME] = Returns.
Proof. reflexivity. Qed.

Example validate_rejects_other_token :
  _validate_format_string (lit "Hi {USER_NAME}, I am {AI_NAME}.") [AI_NAME]
  = RaisesValueError.
Proof. reflexivity. Qed.

Example validate_rejects_doubled_braces :
  _validate_format_string (lit "{{AI_NAME}}") [AI_NAME] = RaisesValueError.
Proof. reflexivity. Qed.

Example validate_rejects_lone_closing_brace :
  _validate_format_string (lit "I am {AI_NAME}}") [AI_NAME] = RaisesValueError.
Proof. reflexivity. Qed.

Example format_fills_tokens :
  format {| template := lit "Hi {USER_NAME}, I am {AI_NAME}.";
            allowed_tokens := [AI_NAME; USER_NAME] |}
    {[ lit "USER_NAME" := lit "Bob"; lit "AI_NAME" := lit "Al" ]}
  = Some (lit "Hi Bob, I am Al.").
Proof. reflexivity. Qed.

(* ================================================================== *)
(** * Further properties of ooba_client.py *)

Local Open Scope Z_scope.

(** ** The request and the token stream *)

(** X1: the request posted always has "stream" set to [True]; its prompt is
    the caller's unless [request_params] has a "prompt" of its own, which
    then wins; every other key is as [request_params] has it. *)
Theorem build_request_keys (request_params : gmap str Value) (prompt : str) :
  build_request request_params prompt !! lit "stream" = Some (VBool true)
  ∧ build_request request_params prompt !! lit "prompt"
    = Some (default (VStr prompt) (request_params !! lit "prompt"))
  ∧ ∀ key, key ≠ lit "stream" → key ≠ lit "prompt" →
      build_request request_params prompt !! key = request_params !! key.
Proof.
  unfold build_request. split_and!.
  - apply lookup_insert_eq.
  - rewrite lookup_insert_ne by done. rewrite lookup_union.
    destruct (request_params !! lit "prompt") as [v|] eqn:Hv; simpl.
    + by rewrite lookup_singleton_eq.
    + by rewrite lookup_singleton_eq.
  - intros key Hstream Hprompt. rewrite lookup_insert_ne by done.
    rewrite lookup_union, lookup_singleton_ne by done.
    by destruct (request_params !! key).
Qed.

Lemma build_request_keys_witness :
  build_request
    {[ lit "max_tokens" := VNumber 200; lit "stream" := VBool false ]}
    (lit "Hi") !! lit "max_tokens"
  = ({[ lit "max_tokens" := VNumber 200; lit "stream" := VBool false ]}
       : gmap str Value) !! lit "max_tokens".
Proof.
  refine (proj2 (proj2 (build_request_keys
                          {[ lit "max_tokens" := VNumber 200;
                             lit "stream" := VBool false ]} (lit "Hi")))
            (lit "max_tokens") _ _); discriminate.
Defined.

(** A "prompt" among the parameters replaces the caller's. *)
Example build_request_prompt_overridden :
  build_request {[ lit "prompt" := VStr (lit "theirs") ]} (lit "mine")
    !! lit "prompt"
  = Some (VStr (lit "theirs")).
Proof. reflexivity. Qed.

(** X2: whatever the events, raw mode yields tokens that are not the
    marker, then the marker once and last if some event carries a finish
    reason, and no marker at all if none does. *)
Theorem request_by_token_stream_shape (events : list Event) (total : nat) :
  ∃ deltas,
    Forall (λ t, t ≠ END_OF_INPUT) deltas
    ∧ ((Exists (λ e, is_Some (finish_reason e)) events
        ∧ (request_by_token events total).1 = deltas ++ [END_OF_INPUT])
       ∨ (Forall (λ e, finish_reason e = None) events
          ∧ (request_by_token events total).1 = deltas)).
Proof.
  revert total. induction events as [|e events IH]; intros total.
  { exists []. split; [done |]. right. by split. }
  simpl.
  set (first := if decide (text e ≠ END_OF_INPUT) then [text e] else []).
  assert (Forall (λ t, t ≠ END_OF_INPUT) first) as Hfirst.
  { subst first. case_decide; by repeat constructor. }
  destruct (finish_reason e) as [reason|] eqn:He.
  - exists first. split; [done |]. left. split; [| done].
    left. by rewrite He.
  - destruct (IH (S total)) as (deltas & Hdeltas & Hshape).
    destruct (request_by_token events (S total)) as [later n]. simpl in *.
    exists (first ++ deltas). split; [by apply Forall_app |].
    destruct Hshape as [[Hex ->] | [Hall ->]].
    + left. split; [by right | by rewrite app_assoc].
    + right. split; [by constructor | done].
Qed.

(** X3: aggregate mode returns the text deltas put together, of the events
    up to and including the first that carries a finish reason, or of all
    the events when none does. *)
Theorem request_as_string_joins (before after : list Event) (final : Event) :
  Forall (λ e, finish_reason e = None) before →
  request_as_string before = Py.join (text <$> before)
  ∧ (is_Some (finish_reason final) →
     request_as_string (before ++ final :: after)
     = Py.join (text <$> before ++ [final])).
Proof.
  intros Hbefore. unfold request_as_string. split.
  - rewrite request_by_token_unfinished by done. simpl.
    apply join_filter_nonempty.
  - intros [reason Hfinal].
    rewrite (request_by_token_finished _ _ _ _ _ Hbefore Hfinal). simpl.
    unfold Py.join. rewrite concat_app. simpl. rewrite app_nil_r.
    apply join_filter_nonempty.
Qed.

Lemma request_as_string_joins_witness :
  request_as_string
    [mkEvent (lit "Oh") None; mkEvent (lit "") None;
     mkEvent (lit ",") (Some (lit "stop")); mkEvent (lit "late") None]
  = lit "Oh,".
Proof.
  refine (proj2 (request_as_string_joins
                   [mkEvent (lit "Oh") None; mkEvent (lit "") None]
                   [mkEvent (lit "late") None]
                   (mkEvent (lit ",") (Some (lit "stop"))) _) _).
  - repeat constructor.
  - by eexists.
Defined.

(** ** The splitters *)

Lemma regex_partition_no_match (pattern : Pattern) (fuel : nat) :
  ∀ self units self',
    regex_partition pattern fuel self (unseen_window self) = Some (units, self') →
    pattern (unseen_window self') = None
    ∧ (units = [] ↔ pattern (unseen_window self) = None).
Proof.
  induction fuel as [|fuel IH]; intros self units self' H; [done |].
  rewrite regex_partition_S in H.
  destruct (pattern (unseen_window self)) as [m|] eqn:Hm.
  - destruct (regex_partition _ _ _ _) as [[rest s]|] eqn:Hrec; [| done].
    simpl in H. simplify_eq. apply IH in Hrec as [Hnone _].
    split; [done |]. by split.
  - simplify_eq. by split.
Qed.

(** X4: when [next] returns from an ordinary token on a [RegexSplitter], the
    pattern no longer matches the unseen window: every message the text holds
    so far has been yielded.  Nothing is yielded exactly when the pattern
    did not match the window the call started from. *)
Theorem next_regex_leaves_no_match (pattern : Pattern) (fuel : nat)
    (self : MessageSplitter) (new_token : str) (units : list str)
    (self' : MessageSplitter) :
  new_token ≠ END_OF_INPUT →
  next (RegexSplitter pattern) fuel self new_token = Some (units, self') →
  pattern (unseen_window self') = None
  ∧ (units = []
     ↔ pattern (unseen_window
                  {| printed_idx := printed_idx self;
                     full_response := full_response self ++ new_token |})
       = None).
Proof.
  intros Hne H. unfold next in H. rewrite decide_False in H by done.
  simpl in H. by apply regex_partition_no_match in H.
Qed.

Lemma next_regex_leaves_no_match_witness :
  match_line
    (unseen_window
       {| printed_idx := 12;
          full_response := lit "Hello world" ++ [newline] ++ lit "By" |})
  = None.
Proof.
  refine (proj1 (next_regex_leaves_no_match match_line 3
                   {| printed_idx := 0; full_response := lit "Hello" |}
                   (lit " world" ++ [newline] ++ lit "By")
                   [lit "Hello world"]
                   {| printed_idx := 12;
                      full_response := lit "Hello world" ++ [newline] ++ lit "By" |}
                   _ _)).
  - discriminate.
  - reflexivity.
Defined.

Lemma unseen_window_advance (self : MessageSplitter) (n : Z) :
  cursor_in_range self → 0 ≤ n →
  unseen_window (advance self n) = drop (Z.to_nat n) (unseen_window self).
Proof.
  intros [Hlo Hhi] Hn. unfold unseen_window. simpl.
  rewrite !slice_from_drop by lia. rewrite drop_drop. f_equal. lia.
Qed.

Lemma contiguous_app (complete rest : list TextSpan) :
  ∀ offset text,
    contiguous offset text (complete ++ rest) →
    take (length (Py.join (sent <$> complete))) text
    = Py.join (sent <$> complete)
    ∧ contiguous (offset + Py.len (Py.join (sent <$> complete)))
        (drop (length (Py.join (sent <$> complete))) text) rest.
Proof.
  unfold Py.join.
  induction complete as [|span complete IH]; intros offset text H.
  - simpl. rewrite drop_0, take_0. replace (offset + Py.len []) with offset
      by (unfold Py.len; simpl; lia).
    done.
  - destruct H as (Hstart & Htake & Htail). apply IH in Htail as [Htake' Htail].
    rewrite fmap_cons. cbn [concat]. rewrite length_app, len_app.
    split.
    + rewrite <- take_take_drop. by rewrite Htake, Htake'.
    + rewrite <- drop_drop. by rewrite Z.add_assoc.
Qed.

Lemma contiguous_last_start (complete : list TextSpan) (final : TextSpan)
    (text : str) :
  contiguous 0 text (complete ++ [final]) →
  start final = Py.len (Py.join (sent <$> complete))
  ∧ Py.join (sent <$> complete)
    ++ drop (length (Py.join (sent <$> complete))) text = text.
Proof.
  intros H. apply contiguous_app in H as [Htake (Hstart & _)].
  split; [by rewrite Hstart |]. rewrite <- Htake at 1. apply take_drop.
Qed.

Lemma snoc_cases {A} (l : list A) :
  l = [] ∨ ∃ init final, l = init ++ [final].
Proof. induction l using rev_ind; eauto. Qed.

(** X5: when the spans the segmenter answers lie one after the other from
    the start of the window and spell it, [SentenceSplitter.partition] loses
    nothing and repeats nothing: the sentences of the spans it emits,
    followed by the window it leaves unseen, are the window it was given. *)
Theorem sentence_partition_no_loss (segmenter : Segmenter)
    (self : MessageSplitter) :
  cursor_in_range self →
  contiguous 0 (unseen_window self) (segmenter (unseen_window self)) →
  let segments := segmenter (unseen_window self) in
  let result := sentence_partition segmenter self (unseen_window self) in
  Py.join (sent <$> all_but_last segments) ++ unseen_window result.2
  = unseen_window self
  ∧ length result.1 = length (all_but_last segments).
Proof.
  intros Hin Hcont segments result. subst result. unfold sentence_partition.
  fold segments. fold segments in Hcont.
  assert (∀ l : list TextSpan, length (sentence_loop l) = length l) as Hlen.
  { induction l; simpl; by f_equal. }
  destruct (snoc_cases segments) as [Hseg | (complete & final & Hseg)].
  - rewrite Hseg in *. simpl in *. by rewrite Hcont.
  - rewrite Hseg in *. rewrite last_snoc, all_but_last_snoc. simpl.
    apply contiguous_last_start in Hcont as [Hstart Hjoin].
    split; [| apply Hlen].
    rewrite unseen_window_advance by (rewrite ?Hstart; first [done | apply len_nonneg]).
    rewrite Hstart. unfold Py.len at 1. by rewrite Nat2Z.id.
Qed.

Lemma with_char_spans_contiguous (sentences : list str) :
  ∀ offset, contiguous offset (concat sentences) (with_char_spans offset sentences).
Proof.
  induction sentences as [|s rest IH]; intros offset; simpl; [done |].
  split_and!; [done | by rewrite take_app_length |].
  rewrite drop_app_length. apply IH.
Qed.

Lemma full_stop_segmenter_contiguous (unseen : str) :
  contiguous 0 unseen (full_stop_segmenter unseen).
Proof.
  unfold full_stop_segmenter.
  rewrite <- (cut_sentences_concat unseen false []) at 1.
  apply with_char_spans_contiguous.
Qed.

Lemma sentence_partition_no_loss_witness :
  let self := {| printed_idx := 5; full_response := lit "Hi.  One. Two. Thr" |} in
  Py.join [lit "One. "; lit "Two. "] ++ lit "Thr" = lit "One. Two. Thr"
  ∧ length (sentence_partition full_stop_segmenter self (unseen_window self)).1
    = 2%nat.
Proof.
  intros self.
  refine (sentence_partition_no_loss full_stop_segmenter self _ _).
  - vm_compute. split; discriminate.
  - apply full_stop_segmenter_contiguous.
Defined.

Lemma next_full_response (sp : Splitter) (fuel : nat) (self : MessageSplitter)
    (new_token : str) (units : list str) (self' : MessageSplitter) :
  next sp fuel self new_token = Some (units, self') →
  full_response self' = full_response self ++ new_token.
Proof.
  unfold next. case_decide as Hmark.
  - by intros [= _ <-].
  - intros Hpart. by apply partition_full_response in Hpart.
Qed.

Lemma feed_cons (sp : Splitter) (fuel : nat) (splitter : MessageSplitter)
    (new_token : str) (stream : list str) (calls : list Yielded) :
  feed sp fuel splitter (new_token :: stream) = Some calls →
  ∃ units splitter' later,
    next sp fuel splitter new_token = Some (units, splitter')
    ∧ feed sp fuel splitter' stream = Some later
    ∧ calls = (units, splitter') :: later.
Proof.
  intros H. cbn [feed] in H.
  destruct (next sp fuel splitter new_token) as [[units s]|] eqn:Hnext;
    [| done].
  cbn [mbind option_bind] in H.
  destruct (feed sp fuel s stream) as [later|] eqn:Hfeed; [| done].
  cbn [mbind option_bind] in H. injection H as <-. by eexists _, _, _.
Qed.

Lemma feed_full_response_at (sp : Splitter) (fuel : nat)
    (splitter : MessageSplitter) (stream : list str) (calls : list Yielded) :
  feed sp fuel splitter stream = Some calls →
  length calls = length stream
  ∧ ∀ k state,
      calls.*2 !! k = Some state →
      full_response state
      = full_response splitter ++ Py.join (take (S k) stream).
Proof.
  revert splitter calls.
  induction stream as [|new_token stream IH]; intros splitter calls H.
  { simpl in H. by simplify_eq. }
  apply feed_cons in H as (units & s & later & Hnext & Hfeed & ->).
  apply next_full_response in Hnext. destruct (IH _ _ Hfeed) as [Hlen Hfull].
  split; [simpl; by f_equal |].
  intros [|k] state Hk; simpl in Hk.
  - simplify_eq. rewrite Hnext. unfold Py.join. simpl.
    by rewrite ?take_0, app_nil_r.
  - rewrite (Hfull k state Hk), Hnext. unfold Py.join. simpl.
    by rewrite <- app_assoc.
Qed.

Lemma pattern_consumes_sound (pattern : Pattern) :
  pattern_consumes pattern → pattern_sound pattern.
Proof. intros Hpat unseen m Hm. apply Hpat in Hm. lia. Qed.

Lemma next_regex_returns (pattern : Pattern) (fuel : nat)
    (self : MessageSplitter) (new_token : str) :
  pattern_consumes pattern →
  cursor_in_range self →
  (length (full_response self) + length new_token < fuel)%nat →
  ∃ units self',
    next (RegexSplitter pattern) fuel self new_token = Some (units, self').
Proof.
  intros Hpat [Hlo _] Hfuel. unfold next. case_decide as Hmark; [by eexists _, _ |].
  set (appended := {| printed_idx := printed_idx self;
                      full_response := full_response self ++ new_token |}).
  destruct (regex_partition_terminates_window pattern Hpat fuel appended)
    as (units & self' & Hret & _); [done | | by eexists _, _].
  pose proof (length_unseen_window_le appended) as Hle.
  subst appended. simpl in Hle. rewrite length_app in Hle. lia.
Qed.

Lemma feed_regex_returns (pattern : Pattern) (fuel : nat) :
  pattern_consumes pattern →
  ∀ stream splitter,
    cursor_in_range splitter →
    (length (full_response splitter) + length (Py.join stream) < fuel)%nat →
    ∃ calls, feed (RegexSplitter pattern) fuel splitter stream = Some calls.
Proof.
  intros Hpat. induction stream as [|new_token stream IH];
    intros splitter Hin Hfuel; [by eexists |].
  unfold Py.join in Hfuel. cbn [concat] in Hfuel. rewrite length_app in Hfuel.
  destruct (next_regex_returns pattern fuel splitter new_token Hpat Hin)
    as (units & s & Hnext); [lia |].
  pose proof (next_full_response _ _ _ _ _ _ Hnext) as Hfull.
  pose proof (next_preserves (RegexSplitter pattern)
                (pattern_consumes_sound pattern Hpat) _ _ _ _ _ Hin Hnext)
    as [Hin' _].
  destruct (IH s Hin') as [later Hlater].
  { rewrite Hfull, length_app. unfold Py.join. lia. }
  exists ((units, s) :: later). cbn [feed]. rewrite Hnext.
  cbn [mbind option_bind]. by rewrite Hlater.
Qed.

Lemma feed_sentence_returns (segmenter : Segmenter) (fuel : nat) :
  ∀ stream splitter,
    ∃ calls, feed (SentenceSplitter segmenter) fuel splitter stream = Some calls.
Proof.
  induction stream as [|new_token stream IH]; intros splitter; [by eexists |].
  assert (∃ units s, next (SentenceSplitter segmenter) fuel splitter new_token
                     = Some (units, s)) as (units & s & Hnext).
  { unfold next. case_decide; [by eexists _, _ |]. simpl.
    destruct (sentence_partition _ _ _) as [units s]. by eexists _, _. }
  destruct (IH s) as [later Hlater].
  exists ((units, s) :: later). cbn [feed]. rewrite Hnext.
  cbn [mbind option_bind]. by rewrite Hlater.
Qed.

(** X6: with a sentence splitter, or a regex splitter whose pattern consumes
    at least one character at each match, message mode goes through any
    stream: given as many tests per call as the text has characters, and one
    more, every token of the stream has its call of [next] and that call
    returns; after the call for the [k]-th token [full_response] is the text
    the splitter started with followed by the tokens fed so far. *)
Theorem feed_accumulates (sp : Splitter) (fuel : nat)
    (splitter : MessageSplitter) (stream : list str) :
  splitter_returns sp →
  cursor_in_range splitter →
  (length (full_response splitter) + length (Py.join stream) < fuel)%nat →
  ∃ calls,
    feed sp fuel splitter stream = Some calls
    ∧ length calls = length stream
    ∧ ∀ k state,
        calls.*2 !! k = Some state →
        full_response state
        = full_response splitter ++ Py.join (take (S k) stream).
Proof.
  intros Hreturns Hin Hfuel.
  assert (∃ calls, feed sp fuel splitter stream = Some calls) as [calls H].
  { destruct sp as [pattern | segmenter].
    - by apply feed_regex_returns.
    - apply feed_sentence_returns. }
  exists calls. split; [done |]. by apply feed_full_response_at in H.
Qed.

Lemma feed_accumulates_witness :
  ∃ calls,
    feed (RegexSplitter match_line) 13 new_splitter
      [lit "Hello"; lit " world" ++ [newline]] = Some calls
    ∧ length calls = 2%nat
    ∧ ∀ k state,
        calls.*2 !! k = Some state →
        full_response state
        = [] ++ Py.join (take (S k) [lit "Hello"; lit " world" ++ [newline]]).
Proof.
  refine (feed_accumulates (RegexSplitter match_line) 13 new_splitter
            [lit "Hello"; lit " world" ++ [newline]] match_line_end _ _).
  - vm_compute. split; discriminate.
  - vm_compute. lia.
Defined.

Lemma feed_app (sp : Splitter) (fuel : nat) (first second : list str) :
  ∀ splitter calls,
    feed sp fuel splitter (first ++ second) = Some calls →
    ∃ calls1 calls2,
      feed sp fuel splitter first = Some calls1
      ∧ feed sp fuel (default splitter (last (calls1.*2))) second = Some calls2
      ∧ calls = calls1 ++ calls2.
Proof.
  induction first as [|new_token first IH]; intros splitter calls H.
  { exists [], calls. by split_and!. }
  rewrite <- app_comm_cons in H.
  apply feed_cons in H as (units & s & later & Hnext & Hfeed & ->).
  destruct (IH _ _ Hfeed) as (calls1 & calls2 & H1 & H2 & ->).
  exists ((units, s) :: calls1), calls2. split_and!; [| | done].
  - cbn [feed]. rewrite Hnext. cbn [mbind option_bind]. by rewrite H1.
  - rewrite fmap_cons, last_cons. cbn [snd].
    by destruct (last (calls1.*2)).
Qed.

Lemma feed_final_in_range (sp : Splitter) (fuel : nat) :
  splitter_sound sp →
  ∀ stream splitter calls,
    cursor_in_range splitter →
    feed sp fuel splitter stream = Some calls →
    cursor_in_range (default splitter (last (calls.*2))).
Proof.
  intros Hsound. induction stream as [|new_token stream IH];
    intros splitter calls Hin H.
  { simpl in H. by simplify_eq. }
  apply feed_cons in H as (units & s & later & Hnext & Hfeed & ->).
  apply (next_preserves sp Hsound) in Hnext as [Hin' _]; [| done].
  specialize (IH _ _ Hin' Hfeed).
  rewrite fmap_cons, last_cons. cbn [snd]. by destruct (last (later.*2)).
Qed.

Lemma feed_final_full_response (sp : Splitter) (fuel : nat) :
  ∀ stream splitter calls,
    feed sp fuel splitter stream = Some calls →
    full_response (default splitter (last (calls.*2)))
    = full_response splitter ++ Py.join stream.
Proof.
  induction stream as [|new_token stream IH]; intros splitter calls H.
  { simpl in H. simplify_eq. simpl. by rewrite app_nil_r. }
  apply feed_cons in H as (units & s & later & Hnext & Hfeed & ->).
  apply next_full_response in Hnext. specialize (IH _ _ Hfeed).
  rewrite fmap_cons, last_cons. cbn [snd].
  assert (full_response (default s (last (later.*2)))
          = full_response splitter ++ Py.join (new_token :: stream)) as Hgoal.
  { etrans; [apply IH |]. rewrite Hnext. unfold Py.join. simpl.
    by rewrite <- app_assoc. }
  by destruct (last (later.*2)).
Qed.

(** X7: message mode leaves nothing behind.  When a fresh splitter with a
    sound engine is fed tokens and then the marker, the last call ends with
    [full_response] the tokens put together, the cursor at its end and the
    unseen window empty; what that call yields is nothing or one unit, the
    tail of the text from where the cursor stood. *)
Theorem feed_flushes_everything (sp : Splitter) (fuel : nat)
    (toks : list str) (calls : list Yielded) :
  splitter_sound sp →
  feed sp fuel new_splitter (toks ++ [END_OF_INPUT]) = Some calls →
  ∃ earlier units final,
    calls = earlier ++ [(units, final)]
    ∧ full_response final = Py.join toks
    ∧ printed_idx final = Py.len (Py.join toks)
    ∧ unseen_window final = []
    ∧ (units = [] ∨ ∃ k, units = [drop k (Py.join toks)]).
Proof.
  intros Hsound H.
  apply feed_app in H as (earlier & flush & Hearlier & Hflush & ->).
  set (before := default new_splitter (last (earlier.*2))) in *.
  assert (cursor_in_range before) as Hin.
  { by eapply (feed_final_in_range sp fuel Hsound toks new_splitter). }
  assert (full_response before = Py.join toks) as Hfull.
  { subst before. by rewrite (feed_final_full_response _ _ _ _ _ Hearlier). }
  apply feed_cons in Hflush as (units & final & later & Hnext & Hnil & ->).
  simpl in Hnil. simplify_eq.
  exists earlier, units, final. split; [done |].
  unfold next in Hnext. rewrite decide_True in Hnext by done.
  assert ({| printed_idx := printed_idx before;
             full_response := full_response before ++ END_OF_INPUT |} = before)
    as Hsame.
  { destruct before as [i full]. simpl. unfold END_OF_INPUT.
    by rewrite app_nil_r. }
  rewrite Hsame in Hnext. injection Hnext as <- <-.
  pose proof Hin as [Hlo Hhi].
  assert (printed_idx (advance before (Py.len (unseen_window before)))
          = Py.len (Py.join toks)) as Hidx.
  { simpl. rewrite len_unseen_window by done. rewrite Hfull. lia. }
  split_and!.
  - done.
  - done.
  - unfold unseen_window at 1. apply slice_from_end.
    cbn [full_response advance]. rewrite Hidx, Hfull. lia.
  - destruct (Py.truthy (Py.strip (unseen_window before))); [right | by left].
    exists (Z.to_nat (printed_idx before)). unfold unseen_window.
    by rewrite slice_from_drop, Hfull.
Qed.

Lemma feed_flushes_everything_witness :
  ∃ earlier units final,
    [([], {| printed_idx := 0; full_response := lit "Hello" |});
     ([lit "Hello"], {| printed_idx := 5; full_response := lit "Hello" |})]
    = earlier ++ [(units, final)]
    ∧ full_response final = Py.join [lit "Hello"]
    ∧ printed_idx final = Py.len (Py.join [lit "Hello"])
    ∧ unseen_window final = []
    ∧ (units = [] ∨ ∃ k, units = [drop k (Py.join [lit "Hello"])]).
Proof.
  refine (feed_flushes_everything (RegexSplitter match_line) 2 [lit "Hello"]
            _ match_line_sound _).
  reflexivity.
Defined.

(** ** The batches *)

Lemma grouped_loop_nonempty (interval : Z) :
  ∀ stream last_response tokens,
    Forall (λ b, batch_text b ≠ [])
      (grouped_loop interval last_response tokens stream).
Proof.
  induction stream as [|a stream IH]; intros last_response tokens; [done |].
  destruct (decide (token a = END_OF_INPUT)) as [Hend | Hne].
  - rewrite grouped_loop_marker by done.
    destruct tokens; simpl; by repeat constructor.
  - rewrite grouped_loop_token by done. case_decide; [apply IH |].
    constructor; [| apply IH]. simpl.
    destruct (token a); [done |]. by destruct tokens.
Qed.

(** X8: batched mode never releases an empty batch, whatever the stream and
    the clock. *)
Theorem grouped_tokens_never_empty (interval started : Z)
    (stream : list Arrival) :
  Forall (λ b, batch_text b ≠ [])
    (request_as_grouped_tokens interval started stream).
Proof. apply grouped_loop_nonempty. Qed.

Lemma grouped_loop_left_over (interval : Z) (eos : Arrival) :
  token eos = END_OF_INPUT →
  ∀ toks last_response tokens,
    Forall (λ a, token a ≠ END_OF_INPUT) toks →
    ∃ left_over,
      Py.join (batch_text <$> grouped_loop interval last_response tokens toks)
        ++ left_over
      = tokens ++ Py.join (token <$> toks)
      ∧ grouped_loop interval last_response tokens (toks ++ [eos])
        = grouped_loop interval last_response tokens toks
          ++ (if Py.truthy left_over then [Final left_over] else []).
Proof.
  intros Heos. unfold Py.join.
  induction toks as [|a toks IH]; intros last_response tokens Htoks.
  - exists tokens. split.
    + simpl. by rewrite app_nil_r.
    + change ([] ++ [eos]) with [eos]. by rewrite grouped_loop_marker.
  - inversion Htoks as [|? ? Ha Htoks']; subst.
    rewrite <- app_comm_cons, !grouped_loop_token by done. case_decide.
    + destruct (IH last_response (tokens ++ token a) Htoks')
        as (left_over & Hjoin & Hout).
      exists left_over. split; [| done].
      rewrite Hjoin, fmap_cons. simpl. by rewrite <- app_assoc.
    + destruct (IH (after a) [] Htoks') as (left_over & Hjoin & Hout).
      exists left_over. split.
      * rewrite !fmap_cons. cbn [concat batch_text].
        rewrite <- !app_assoc. f_equal. f_equal. apply Hjoin.
      * rewrite Hout. by rewrite app_comm_cons.
Qed.

(** X10: when the stream stops without the marker, the batches released are
    a beginning of the text, and what is missing is the buffer: exactly the
    batch the marker would have released, had it come. *)
Theorem grouped_tokens_left_over (interval started : Z)
    (toks : list Arrival) (eos : Arrival) :
  Forall (λ a, token a ≠ END_OF_INPUT) toks →
  token eos = END_OF_INPUT →
  ∃ left_over,
    Py.join (batch_text <$> request_as_grouped_tokens interval started toks)
      ++ left_over
    = Py.join (token <$> toks)
    ∧ request_as_grouped_tokens interval started (toks ++ [eos])
      = request_as_grouped_tokens interval started toks
        ++ (if Py.truthy left_over then [Final left_over] else []).
Proof.
  intros Htoks Heos.
  destruct (grouped_loop_left_over interval eos Heos toks started [] Htoks)
    as (left_over & Hjoin & Hout).
  by exists left_over.
Qed.

Lemma grouped_tokens_left_over_witness :
  ∃ left_over,
    Py.join (batch_text <$>
               request_as_grouped_tokens 100 0
                 [mkArrival (lit "a") 0 0; mkArrival (lit "b") 130 131;
                  mkArrival (lit "c") 140 140])
      ++ left_over
    = Py.join [lit "a"; lit "b"; lit "c"]
    ∧ request_as_grouped_tokens 100 0
        ([mkArrival (lit "a") 0 0; mkArrival (lit "b") 130 131;
          mkArrival (lit "c") 140 140] ++ [mkArrival END_OF_INPUT 0 0])
      = request_as_grouped_tokens 100 0
          [mkArrival (lit "a") 0 0; mkArrival (lit "b") 130 131;
           mkArrival (lit "c") 140 140]
        ++ (if Py.truthy left_over then [Final left_over] else []).
Proof.
  refine (grouped_tokens_left_over 100 0
            [mkArrival (lit "a") 0 0; mkArrival (lit "b") 130 131;
             mkArrival (lit "c") 140 140]
            (mkArrival END_OF_INPUT 0 0) _ _).
  - repeat constructor; discriminate.
  - reflexivity.
Defined.

(** X11: the loop stops at the first marker: arrivals after it are never
    read and change nothing. *)
Theorem grouped_tokens_stop_at_marker (interval started : Z)
    (toks later : list Arrival) (eos : Arrival) :
  token eos = END_OF_INPUT →
  request_as_grouped_tokens interval started (toks ++ eos :: later)
  = request_as_grouped_tokens interval started (toks ++ [eos]).
Proof.
  intros Heos. unfold request_as_grouped_tokens.
  generalize (@nil ascii) as tokens. generalize started as last_response.
  induction toks as [|a toks IH]; intros last_response tokens.
  - by rewrite !app_nil_l, !grouped_loop_marker.
  - rewrite <- !app_comm_cons.
    destruct (decide (token a = END_OF_INPUT)) as [Hend | Hne].
    + by rewrite !grouped_loop_marker.
    + rewrite !grouped_loop_token by done. case_decide; by rewrite IH.
Qed.

Lemma grouped_tokens_stop_at_marker_witness :
  request_as_grouped_tokens 100 0
    ([mkArrival (lit "a") 0 0] ++ mkArrival END_OF_INPUT 5 5
       :: [mkArrival (lit "late") 500 500])
  = request_as_grouped_tokens 100 0
      ([mkArrival (lit "a") 0 0] ++ [mkArrival END_OF_INPUT 5 5]).
Proof.
  refine (grouped_tokens_stop_at_marker 100 0 [mkArrival (lit "a") 0 0]
            [mkArrival (lit "late") 500 500] (mkArrival END_OF_INPUT 5 5) _).
  reflexivity.
Defined.

Lemma timed_grouped_loop_join {T} (clock : Clock T) (interval : T)
    (eos : TimedArrival T) :
  timed_token eos = END_OF_INPUT →
  ∀ toks last_response tokens,
    Forall (λ a, timed_token a ≠ END_OF_INPUT) toks →
    Py.join (timed_batch_text
               <$> timed_grouped_loop clock interval last_response tokens
                     (toks ++ [eos]))
    = tokens ++ Py.join (timed_token <$> toks).
Proof.
  intros Heos. unfold Py.join.
  induction toks as [|a toks IH]; intros last_response tokens Htoks.
  - cbn [app timed_grouped_loop]. rewrite decide_True by done.
    destruct tokens; simpl; by rewrite ?app_nil_r.
  - inversion Htoks as [|? ? Ha Htoks']; subst.
    rewrite <- app_comm_cons. cbn [timed_grouped_loop].
    rewrite decide_False by done. rewrite fmap_cons. cbn [concat].
    destruct (clock_lt clock (timed_now a) (clock_add clock last_response interval)).
    + rewrite IH by done. by rewrite <- app_assoc.
    + rewrite fmap_cons. cbn [concat timed_batch_text].
      rewrite IH by done. by rewrite app_nil_l, <- app_assoc.
Qed.

Lemma timed_grouped_loop_nonempty {T} (clock : Clock T) (interval : T) :
  ∀ stream last_response tokens,
    Forall (λ b, timed_batch_text b ≠ [])
      (timed_grouped_loop clock interval last_response tokens stream).
Proof.
  induction stream as [|a stream IH]; intros last_response tokens; [done |].
  cbn [timed_grouped_loop].
  destruct (decide (timed_token a = END_OF_INPUT)) as [Hend | Hne].
  - destruct tokens; simpl; by repeat constructor.
  - destruct (clock_lt clock (timed_now a) (clock_add clock last_response interval));
      [apply IH |].
    constructor; [| apply IH]. simpl.
    destruct (timed_token a); [done |]. by destruct tokens.
Qed.

(** X9: the guarantees of batched mode do not depend on how the clock adds
    and compares, so they hold with the rounded sums of floats as well: on a
    stream of ordinary tokens closed by the marker the batches put together
    are the tokens put together, and no batch is empty. *)
Theorem grouped_tokens_any_clock {T} (clock : Clock T) (interval started : T)
    (toks : list (TimedArrival T)) (eos : TimedArrival T) :
  Forall (λ a, timed_token a ≠ END_OF_INPUT) toks →
  timed_token eos = END_OF_INPUT →
  Py.join (timed_batch_text
             <$> timed_request_as_grouped_tokens clock interval started
                   (toks ++ [eos]))
  = Py.join (timed_token <$> toks)
  ∧ Forall (λ b, timed_batch_text b ≠ [])
      (timed_request_as_grouped_tokens clock interval started (toks ++ [eos])).
Proof.
  intros Htoks Heos. unfold timed_request_as_grouped_tokens. split.
  - by rewrite (timed_grouped_loop_join clock interval eos Heos toks started []).
  - apply timed_grouped_loop_nonempty.
Qed.

Lemma grouped_tokens_any_clock_witness :
  Py.join (timed_batch_text
             <$> timed_request_as_grouped_tokens integer_clock 100 0
                   ([mkTimedArrival (lit "a") 10 10;
                     mkTimedArrival (lit "b") 130 131;
                     mkTimedArrival (lit "c") 140 140]
                    ++ [mkTimedArrival END_OF_INPUT 0 0]))
  = Py.join [lit "a"; lit "b"; lit "c"].
Proof.
  refine (proj1 (grouped_tokens_any_clock integer_clock 100 0
                   [mkTimedArrival (lit "a") 10 10;
                    mkTimedArrival (lit "b") 130 131;
                    mkTimedArrival (lit "c") 140 140]
                   (mkTimedArrival END_OF_INPUT 0 0) _ _)).
  - repeat constructor; discriminate.
  - reflexivity.
Defined.

(** Over the integer clock the loop is the one the batches above are
    computed with. *)
Lemma timed_grouped_loop_integer (interval : Z) (stream : list Arrival) :
  ∀ last_response tokens,
    timed_grouped_loop integer_clock interval last_response tokens
      (timed <$> stream)
    = timed_batch <$> grouped_loop interval last_response tokens stream.
Proof.
  induction stream as [|a stream IH]; intros last_response tokens; [done |].
  rewrite fmap_cons. cbn [timed_grouped_loop timed timed_token timed_now
                          timed_after integer_clock clock_lt clock_add].
  destruct (decide (token a = END_OF_INPUT)) as [Hend | Hne].
  - rewrite grouped_loop_marker by done. by destruct (Py.truthy tokens).
  - rewrite grouped_loop_token by done.
    destruct (Z.ltb_spec (now a) (last_response + interval)) as [Hlt | Hge].
    + rewrite decide_True by done. apply IH.
    + rewrite decide_False by lia. rewrite fmap_cons. cbn [timed_batch].
      f_equal. apply IH.
Qed.

Lemma timed_grouped_loop_all_early {T} (clock : Clock T) (interval deadline : T)
    (eos : TimedArrival T) :
  timed_token eos = END_OF_INPUT →
  ∀ toks tokens,
    Forall (λ a, timed_token a ≠ END_OF_INPUT
                 ∧ clock_lt clock (timed_now a)
                     (clock_add clock deadline interval) = true) toks →
    timed_grouped_loop clock interval deadline tokens toks = []
    ∧ timed_grouped_loop clock interval deadline tokens (toks ++ [eos])
      = if Py.truthy (tokens ++ Py.join (timed_token <$> toks))
        then [TimedFinal (tokens ++ Py.join (timed_token <$> toks))] else [].
Proof.
  intros Heos. unfold Py.join.
  induction toks as [|a toks IH]; intros tokens Htoks.
  - cbn [app timed_grouped_loop fmap list_fmap concat].
    rewrite decide_True by done. by rewrite app_nil_r.
  - inversion Htoks as [|? ? [Ha Hearly] Htoks']; subst.
    rewrite <- app_comm_cons. cbn [timed_grouped_loop].
    destruct (decide (timed_token a = END_OF_INPUT)) as [Hend | _]; [done |].
    rewrite !Hearly.
    destruct (IH (tokens ++ timed_token a) Htoks') as [Hbefore Hout].
    split; [done |]. rewrite Hout, fmap_cons. cbn [concat].
    by rewrite <- app_assoc.
Qed.

(** X12: when for every token the gate of the source, the test that [now]
    is less than the reading taken at the start plus [interval] as the
    clock's own arithmetic computes it, says the token is early, nothing is
    released until the marker, which releases the whole text as one batch
    (and nothing when there was no token). *)
Theorem grouped_tokens_all_early {T} (clock : Clock T) (interval started : T)
    (toks : list (TimedArrival T)) (eos : TimedArrival T) :
  Forall (λ a, timed_token a ≠ END_OF_INPUT
               ∧ clock_lt clock (timed_now a)
                   (clock_add clock started interval) = true) toks →
  timed_token eos = END_OF_INPUT →
  timed_request_as_grouped_tokens clock interval started toks = []
  ∧ timed_request_as_grouped_tokens clock interval started (toks ++ [eos])
    = match toks with
      | [] => []
      | _ => [TimedFinal (Py.join (timed_token <$> toks))]
      end.
Proof.
  intros Htoks Heos. unfold timed_request_as_grouped_tokens.
  destruct (timed_grouped_loop_all_early clock interval started eos Heos
              toks [] Htoks) as [Hbefore Hout].
  split; [done |]. rewrite Hout, app_nil_l.
  destruct toks as [|a toks]; [done |].
  inversion Htoks as [|? ? [Ha _] _]; subst.
  unfold Py.join. rewrite fmap_cons. cbn [concat].
  by destruct (timed_token a).
Qed.

Lemma grouped_tokens_all_early_witness :
  timed_request_as_grouped_tokens integer_clock 100 0
    [mkTimedArrival (lit "a") 10 10; mkTimedArrival (lit "b") 99 99] = []
  ∧ timed_request_as_grouped_tokens integer_clock 100 0
      ([mkTimedArrival (lit "a") 10 10; mkTimedArrival (lit "b") 99 99]
       ++ [mkTimedArrival END_OF_INPUT 0 0])
    = [TimedFinal (Py.join [lit "a"; lit "b"])].
Proof.
  refine (grouped_tokens_all_early integer_clock 100 0
            [mkTimedArrival (lit "a") 10 10; mkTimedArrival (lit "b") 99 99]
            (mkTimedArrival END_OF_INPUT 0 0) _ _).
  - repeat constructor; discriminate.
  - reflexivity.
Defined.

(** X13: with an interval that is not positive and a clock that does not
    run backwards, batched mode is raw mode: each token leaves at once as a
    batch of its own, and the marker releases nothing. *)
Theorem grouped_tokens_no_interval (interval started : Z)
    (toks : list Arrival) (eos : Arrival) :
  interval ≤ 0 →
  clock_monotone started toks →
  Forall (λ a, token a ≠ END_OF_INPUT) toks →
  token eos = END_OF_INPUT →
  request_as_grouped_tokens interval started (toks ++ [eos])
  = (λ a, Windowed (now a) (token a)) <$> toks.
Proof.
  intros Hinterval Hclock Htoks Heos. unfold request_as_grouped_tokens.
  revert started Hclock.
  induction Htoks as [|a toks Ha _ IH]; intros started Hclock.
  - by rewrite app_nil_l, grouped_loop_marker.
  - destruct Hclock as (Hnow & Hafter & Hclock).
    rewrite <- app_comm_cons, grouped_loop_token by done.
    rewrite decide_False by lia. rewrite app_nil_l, fmap_cons.
    f_equal. by apply IH.
Qed.

Lemma grouped_tokens_no_interval_witness :
  request_as_grouped_tokens 0 0
    ([mkArrival (lit "a") 1 2; mkArrival (lit "b") 2 3]
     ++ [mkArrival END_OF_INPUT 0 0])
  = [Windowed 1 (lit "a"); Windowed 2 (lit "b")].
Proof.
  refine (grouped_tokens_no_interval 0 0
            [mkArrival (lit "a") 1 2; mkArrival (lit "b") 2 3]
            (mkArrival END_OF_INPUT 0 0) _ _ _ _).
  - lia.
  - simpl. lia.
  - repeat constructor; discriminate.
  - reflexivity.
Defined.

(* ================================================================== *)
(** * Further properties of templates.py *)

Local Close Scope Z_scope.

(** ** Validation and formatting *)

Lemma token_str_lookup (t : TemplateToken) (d : nat) (c : ascii) :
  token_str t !! d = Some c →
  (d = 0 ∧ c = open_brace)
  ∨ (d = length (value t) + 1 ∧ c = close_brace)
  ∨ (c ≠ open_brace ∧ c ≠ close_brace).
Proof.
  unfold token_str. destruct d as [|d]; simpl.
  { intros [= <-]. by left. }
  intros H. right. apply lookup_app_Some in H as [H | [Hlen H]].
  - right. destruct (plain_lookup _ _ _ (value_plain t) H). by split.
  - left. apply list_lookup_singleton_Some in H as [Hd <-].
    split; [lia | done].
Qed.

(** The braces of a template written from pieces are those of its fields. *)
Lemma pieces_braces (allowed : list TemplateToken) (pieces : list Piece) :
  Forall (piece_allowed allowed) pieces →
  ∀ before,
    let format_str := before ++ concat (written <$> pieces) in
    (∀ i, length before ≤ i → format_str !! i = Some open_brace →
          begins_allowed format_str allowed i)
    ∧ (∀ j, length before ≤ j → format_str !! j = Some close_brace →
            ends_allowed format_str allowed j).
Proof.
  induction 1 as [|p pieces Hp _ IH]; intros before format_str.
  { subst format_str. simpl. rewrite app_nil_r.
    split; intros i Hi Hlook; apply lookup_lt_Some in Hlook; lia. }
  assert (format_str = (before ++ written p) ++ concat (written <$> pieces))
    as Hshape.
  { subst format_str. rewrite fmap_cons. cbn [concat]. by rewrite app_assoc. }
  destruct (IH (before ++ written p)) as [IHopen IHclose].
  rewrite <- Hshape in IHopen, IHclose. rewrite length_app in IHopen, IHclose.
  assert (∀ i c, length before ≤ i → i < length before + length (written p) →
                 format_str !! i = Some c →
                 written p !! (i - length before) = Some c) as Hinside.
  { intros i c Hlo Hhi Hlook. rewrite Hshape in Hlook.
    rewrite lookup_app_l in Hlook by (rewrite length_app; lia).
    by rewrite lookup_app_r in Hlook by lia. }
  assert (∀ t, p = Field t → occurs_at format_str (length before) t) as Hocc.
  { intros t ->. exists (concat (written <$> pieces)).
    rewrite Hshape, <- app_assoc. by rewrite drop_app_length. }
  split.
  - intros i Hlo Hlook.
    destruct (decide (i < length before + length (written p))) as [Hhi | Hhi];
      [| apply IHopen; [lia | done]].
    apply Hinside in Hlook; [| done | done].
    destruct p as [c | t]; simpl in Hp, Hlook.
    + apply list_lookup_singleton_Some in Hlook as [_ ->]. by destruct Hp.
    + apply token_str_lookup in Hlook as [[Hd _] | [[_ ?] | [? _]]];
        [| done | done].
      replace i with (length before) by lia. exists t. split; [done |].
      by apply Hocc.
  - intros j Hlo Hlook.
    destruct (decide (j < length before + length (written p))) as [Hhi | Hhi];
      [| apply IHclose; [lia | done]].
    apply Hinside in Hlook; [| done | done].
    destruct p as [c | t]; simpl in Hp, Hlook.
    + apply list_lookup_singleton_Some in Hlook as [_ ->]. by destruct Hp.
    + apply token_str_lookup in Hlook as [[_ ?] | [[Hd _] | [_ ?]]];
        [done | | done].
      exists (length before), t. split_and!; [done | by apply Hocc | lia].
Qed.

Lemma pieces_braces_allowed (allowed : list TemplateToken)
    (pieces : list Piece) :
  Forall (piece_allowed allowed) pieces →
  braces_allowed (concat (written <$> pieces)) allowed.
Proof.
  intros Hpieces. destruct (pieces_braces allowed pieces Hpieces []) as [Ho Hc].
  simpl in Ho, Hc. split; intros i Hi; [apply Ho | apply Hc]; simpl; first [lia | done].
Qed.

Lemma validate_returns_iff (format_str : str) (allowed : list TemplateToken) :
  _validate_format_string format_str allowed = Returns
  ↔ braces_allowed format_str allowed.
Proof.
  split; [apply validate_returns |]. intros [Hopens Hcloses].
  destruct (_validate_format_string format_str allowed) eqn:Hv; [done |].
  exfalso.
  apply validate_raises in Hv as [(i & Hi & Hnot) | (j & Hj & Hnot)]; eauto.
Qed.

(** X14: validation accepts exactly the templates that are written from
    characters other than braces and from allowed tokens in braces; so a
    template without a brace is accepted whatever the allowed tokens. *)
Theorem validate_accepts_exactly_pieces (format_str : str)
    (allowed_args : list TemplateToken) :
  (_validate_format_string format_str allowed_args = Returns
   ↔ ∃ pieces,
       format_str = concat (written <$> pieces)
       ∧ Forall (piece_allowed allowed_args) pieces)
  ∧ ((∀ c, c ∈ format_str → c ≠ open_brace ∧ c ≠ close_brace) →
     _validate_format_string format_str allowed_args = Returns).
Proof.
  assert (_validate_format_string format_str allowed_args = Returns
          ↔ ∃ pieces,
              format_str = concat (written <$> pieces)
              ∧ Forall (piece_allowed allowed_args) pieces) as Hiff.
  { split.
    - intros Hv. apply validate_returns in Hv.
      destruct (braces_allowed_pieces _ _ Hv (length format_str) 0)
        as (pieces & Hdrop & Hpieces); [lia | intros i t _ Hi; lia |].
      rewrite drop_0 in Hdrop. by exists pieces.
    - intros (pieces & -> & Hpieces). apply validate_returns_iff.
      by apply pieces_braces_allowed. }
  split; [done |]. intros Hplain. apply Hiff.
  exists (Text <$> format_str). split.
  - clear. induction format_str as [|c s IH]; [done |].
    rewrite !fmap_cons. cbn [concat written]. simpl. by f_equal.
  - apply Forall_fmap, Forall_forall. intros c Hc. by apply Hplain.
Qed.

Lemma validate_accepts_exactly_pieces_witness :
  _validate_format_string (lit "No token here.") [] = Returns.
Proof.
  refine (proj2 (validate_accepts_exactly_pieces (lit "No token here.") []) _).
  apply Forall_forall. repeat constructor; discriminate.
Defined.

Lemma str_format_text (kwargs : gmap str str) (c : ascii) (rest : str) :
  c ≠ open_brace → c ≠ close_brace →
  str_format kwargs None (c :: rest)
  = (c ::.) <$> str_format kwargs None rest.
Proof.
  intros Hopen Hclose. cbn [str_format].
  rewrite decide_False by done. by rewrite decide_False by done.
Qed.

Lemma str_format_used (kwargs : gmap str str) (allowed : list TemplateToken)
    (pieces : list Piece) :
  Forall (piece_allowed allowed) pieces →
  (∀ t, t ∈ fields pieces → is_Some (kwargs !! value t)) →
  str_format kwargs None (concat (written <$> pieces))
  = Some (concat (filled kwargs <$> pieces)).
Proof.
  induction 1 as [|p pieces Hp _ IH]; intros Hused; [done |].
  rewrite !fmap_cons. cbn [concat]. destruct p as [c | t]; simpl in Hp.
  - destruct Hp as [Hopen Hclose]. cbn [written filled app].
    rewrite str_format_text by done. by rewrite IH.
  - cbn [written filled]. rewrite str_format_token.
    rewrite IH by (intros t' Ht'; apply Hused; by right).
    destruct (Hused t) as [replacement ->]; [by left | done].
Qed.

Lemma str_format_missing (kwargs : gmap str str) (allowed : list TemplateToken)
    (pieces : list Piece) (t : TemplateToken) :
  Forall (piece_allowed allowed) pieces →
  t ∈ fields pieces → kwargs !! value t = None →
  str_format kwargs None (concat (written <$> pieces)) = None.
Proof.
  induction 1 as [|p pieces Hp _ IH]; intros Hin Hnone.
  { by apply elem_of_nil in Hin. }
  rewrite !fmap_cons. cbn [concat]. destruct p as [c | t']; simpl in Hp, Hin.
  - destruct Hp as [Hopen Hclose]. cbn [written app].
    rewrite str_format_text by done. by rewrite IH.
  - cbn [written]. rewrite str_format_token.
    apply elem_of_cons in Hin as [<- | Hin].
    + by rewrite Hnone.
    + rewrite IH by done. by destruct (kwargs !! value t').
Qed.

(** X15: the template of a formatter that [__init__] accepted is written from
    characters other than braces and from allowed tokens in braces, and
    [format] succeeds exactly when every token so written has a value among
    the arguments: then the characters are copied and each token in braces is
    replaced by its value, and arguments the template does not use are
    ignored; when a token it uses has no value, formatting raises. *)
Theorem format_needs_the_tokens_used (format_str : str)
    (allowed_tokens : list TemplateToken) (self : TemplateMessageFormatter) :
  new_formatter format_str allowed_tokens = Some self →
  ∃ pieces,
    template self = concat (written <$> pieces)
    ∧ Forall (piece_allowed allowed_tokens) pieces
    ∧ ∀ format_args,
        ((∀ t, t ∈ fields pieces → is_Some (format_args !! value t)) →
         format self format_args
         = Some (concat (filled format_args <$> pieces)))
        ∧ (∀ t, t ∈ fields pieces → format_args !! value t = None →
                format self format_args = None).
Proof.
  unfold new_formatter.
  destruct (_validate_format_string format_str allowed_tokens) eqn:Hv; [| done].
  intros [= <-]. apply validate_returns in Hv.
  destruct (braces_allowed_pieces _ _ Hv (length format_str) 0)
    as (pieces & Hdrop & Hpieces); [lia | intros i t _ Hi; lia |].
  rewrite drop_0 in Hdrop. exists pieces. split_and!; [done | done |].
  intros format_args. unfold format. simpl. rewrite Hdrop. split.
  - by apply str_format_used with allowed_tokens.
  - intros t Ht Hnone. by apply str_format_missing with allowed_tokens t.
Qed.

Lemma format_needs_the_tokens_used_witness :
  ∃ pieces,
    lit "Hi {USER_NAME}!" = concat (written <$> pieces)
    ∧ Forall (piece_allowed [AI_NAME; USER_NAME]) pieces
    ∧ ∀ format_args : gmap str str,
        ((∀ t, t ∈ fields pieces → is_Some (format_args !! value t)) →
         format {| template := lit "Hi {USER_NAME}!";
                   allowed_tokens := [AI_NAME; USER_NAME] |} format_args
         = Some (concat (filled format_args <$> pieces)))
        ∧ (∀ t, t ∈ fields pieces → format_args !! value t = None →
                format {| template := lit "Hi {USER_NAME}!";
                          allowed_tokens := [AI_NAME; USER_NAME] |} format_args
                = None).
Proof.
  refine (format_needs_the_tokens_used (lit "Hi {USER_NAME}!")
            [AI_NAME; USER_NAME]
            {| template := lit "Hi {USER_NAME}!";
               allowed_tokens := [AI_NAME; USER_NAME] |} _).
  reflexivity.
Defined.

(** A value for the one token used is enough; without it formatting
    raises. *)
Example format_with_used_token_only :
  format {| template := lit "Hi {USER_NAME}!";
            allowed_tokens := [AI_NAME; USER_NAME] |}
    {[ lit "USER_NAME" := lit "Bob" ]} = Some (lit "Hi Bob!")
  ∧ format {| template := lit "Hi {USER_NAME}!";
              allowed_tokens := [AI_NAME; USER_NAME] |}
      {[ lit "AI_NAME" := lit "Al" ]} = None.
Proof. split; reflexivity. Qed.

(** X16: validation looks at the allowed tokens as a set, and allowing more
    tokens never turns an accepted template into a rejected one. *)
Theorem validate_more_tokens (format_str : str)
    (allowed allowed' : list TemplateToken) :
  (∀ t, t ∈ allowed → t ∈ allowed') →
  _validate_format_string format_str allowed = Returns →
  _validate_format_string format_str allowed' = Returns.
Proof.
  intros Hsub. rewrite !validate_returns_iff. intros [Hopens Hcloses]. split.
  - intros i Hi. destruct (Hopens i Hi) as (t & Hin & Hocc).
    exists t. split; [by apply Hsub | done].
  - intros j Hj. destruct (Hcloses j Hj) as (i & t & Hin & Hocc & ->).
    exists i, t. split_and!; [by apply Hsub | done | done].
Qed.

Lemma validate_more_tokens_witness :
  _validate_format_string (lit "Hi {USER_NAME}!") [USER_NAME; AI_NAME; USER_NAME]
  = Returns.
Proof.
  refine (validate_more_tokens (lit "Hi {USER_NAME}!") [USER_NAME]
            [USER_NAME; AI_NAME; USER_NAME] _ _).
  - intros t Ht. apply list_elem_of_singleton in Ht as ->. by left.
  - reflexivity.
Defined.

(** ** The order of [Templates] *)

Lemma nat_of_ascii_inj (x y : ascii) : nat_of_ascii x = nat_of_ascii y → x = y.
Proof.
  intros H. rewrite <- (ascii_nat_embedding x), <- (ascii_nat_embedding y).
  by rewrite H.
Qed.

Lemma str_lt_irrefl (a : str) : str_lt a a = false.
Proof.
  induction a as [|x a IH]; cbn [str_lt]; [done |]. by rewrite decide_True.
Qed.

Lemma str_lt_trans (a b c : str) :
  str_lt a b = true → str_lt b c = true → str_lt a c = true.
Proof.
  revert b c. induction a as [|x a IH]; intros [|y b] [|z c]; cbn [str_lt];
    try done.
  destruct (decide (x = y)) as [-> | Hxy].
  - destruct (decide (y = z)) as [-> | Hyz]; [apply IH | done].
  - destruct (decide (y = z)) as [-> | Hyz].
    + rewrite decide_False by done. done.
    + intros Hlt1%Nat.ltb_lt Hlt2%Nat.ltb_lt.
      destruct (decide (x = z)) as [-> | Hxz]; [lia |].
      apply Nat.ltb_lt. lia.
Qed.

Lemma str_lt_total (a b : str) :
  a ≠ b → str_lt a b = true ∨ str_lt b a = true.
Proof.
  revert b. induction a as [|x a IH]; intros [|y b] Hne; cbn [str_lt];
    try done.
  - by left.
  - by right.
  - destruct (decide (x = y)) as [-> | Hxy].
    + rewrite decide_True by done. apply IH. congruence.
    + rewrite decide_False by done.
      assert (nat_of_ascii x ≠ nat_of_ascii y) as Hcode
        by (intros H; by apply nat_of_ascii_inj in H).
      destruct (Nat.ltb_spec (nat_of_ascii x) (nat_of_ascii y));
        [by left | right; apply Nat.ltb_lt; lia].
Qed.

Lemma Templates_str_inj (a b : Templates) :
  Templates_str a = Templates_str b → a = b.
Proof. destruct a, b; intros H; first [reflexivity | discriminate H]. Qed.

(** X17: the comparisons of [Templates] are a strict total order, the
    alphabetical order of the names: [<] is irreflexive and transitive, of
    two different members one is smaller than the other, and the derived
    [>], [<=] and [>=] are [<] and [<=] with the sides swapped. *)
Theorem Templates_total_order :
  (∀ a, Templates_lt a a = false)
  ∧ (∀ a b c, Templates_lt a b = true → Templates_lt b c = true →
              Templates_lt a c = true)
  ∧ (∀ a b, a ≠ b → Templates_lt a b = true ∨ Templates_lt b a = true)
  ∧ (∀ a b, Templates_gt a b = Templates_lt b a
            ∧ Templates_ge a b = Templates_le b a
            ∧ Templates_le a b = negb (Templates_lt b a)).
Proof.
  unfold Templates_lt. split_and!.
  - intros a. apply str_lt_irrefl.
  - intros a b c. apply str_lt_trans.
  - intros a b Hne. apply str_lt_total. intros H.
    by apply Templates_str_inj in H.
  - intros a b. by destruct a, b.
Qed.

Lemma Templates_total_order_witness :
  Templates_lt COMMAND_LOBOTOMIZE_RESPONSE PROMPT = true
  ∧ (Templates_lt IMAGE_DETACH PROMPT = true
     ∨ Templates_lt PROMPT IMAGE_DETACH = true).
Proof.
  split.
  - refine (proj1 (proj2 Templates_total_order) COMMAND_LOBOTOMIZE_RESPONSE
              IMAGE_DETACH PROMPT _ _); reflexivity.
  - refine (proj1 (proj2 (proj2 Templates_total_order)) IMAGE_DETACH PROMPT _).
    discriminate.
Defined.

(** ** [TemplateStore] *)

Lemma TEMPLATES_keys : NoDup (TEMPLATES.*1).
Proof. apply (bool_decide_unpack _). by vm_compute. Qed.

Lemma TEMPLATES_entry (template : Templates) :
  (template, tokens_of template) ∈ TEMPLATES.
Proof.
  destruct template; vm_compute (tokens_of _); unfold TEMPLATES;
    repeat first [apply list_elem_of_here | apply list_elem_of_further].
Qed.

Lemma unique_entry {A B} (items : list (A * B)) (key : A) (v1 v2 : B) :
  NoDup (items.*1) → (key, v1) ∈ items → (key, v2) ∈ items → v1 = v2.
Proof.
  induction items as [|[k v] items IH]; intros Hdup H1 H2.
  { by apply elem_of_nil in H1. }
  rewrite fmap_cons in Hdup. apply NoDup_cons in Hdup as [Hfresh Hdup].
  assert (∀ w, (key, w) ∈ items → key ∈ items.*1) as Hkey.
  { intros w Hw. by apply (list_elem_of_fmap_2 fst) in Hw. }
  apply elem_of_cons in H1 as [H1 | H1], H2 as [H2 | H2]; simplify_eq.
  - done.
  - exfalso. eauto.
  - exfalso. eauto.
  - by apply IH.
Qed.

Lemma store_init_loop_inr (settings : gmap str (option str)) :
  ∀ items self store,
    NoDup (items.*1) →
    store_init_loop settings items self = inr store →
    ∀ template,
      (∀ tokens, (template, tokens) ∈ items →
         ∃ template_fmt,
           settings !! Templates_str template = Some (Some template_fmt)
           ∧ _validate_format_string template_fmt tokens = Returns
           ∧ store !! template
             = Some {| template := template_fmt; allowed_tokens := tokens |})
      ∧ (template ∉ items.*1 → store !! template = self !! template).
Proof.
  induction items as [|[t0 tokens0] items IH]; intros self store Hdup H template.
  { simpl in H. simplify_eq. split; [| done].
    intros tokens Hin. by apply elem_of_nil in Hin. }
  rewrite fmap_cons in Hdup. apply NoDup_cons in Hdup as [Hfresh Hdup].
  cbn [store_init_loop] in H.
  destruct (settings !! Templates_str t0) as [[fmt0|]|] eqn:Hsetting;
    [| done | done].
  unfold add_template, new_formatter in H.
  destruct (_validate_format_string fmt0 tokens0) eqn:Hvalid; [| done].
  cbn [mbind option_bind] in H.
  destruct (IH _ _ Hdup H template) as [Hin Hout].
  destruct (IH _ _ Hdup H t0) as [_ Hout0].
  split.
  - intros tokens [Heq | Hitems]%elem_of_cons.
    + simplify_eq. exists fmt0. split_and!; [done | done |].
      rewrite Hout0 by done. apply lookup_insert_eq.
    + by apply Hin.
  - intros Hnot. rewrite fmap_cons, not_elem_of_cons in Hnot.
    destruct Hnot as [Hne Hnot]. rewrite Hout by done.
    by apply lookup_insert_ne.
Qed.

Lemma store_init_loop_succeeds (settings : gmap str (option str)) :
  ∀ items self,
    (∀ template tokens, (template, tokens) ∈ items →
       ∃ template_fmt,
         settings !! Templates_str template = Some (Some template_fmt)
         ∧ _validate_format_string template_fmt tokens = Returns) →
    ∃ store, store_init_loop settings items self = inr store.
Proof.
  induction items as [|[t0 tokens0] items IH]; intros self Hall.
  { by eexists. }
  destruct (Hall t0 tokens0) as (fmt0 & Hsetting & Hvalid); [by left |].
  cbn [store_init_loop]. rewrite Hsetting.
  unfold add_template, new_formatter. rewrite Hvalid.
  cbn [mbind option_bind]. apply IH. intros template tokens Hin.
  apply Hall. by right.
Qed.

Lemma new_store_content (settings : gmap str (option str))
    (store : TemplateStore) :
  new_store settings = inr store →
  ∀ template,
    ∃ template_fmt,
      settings !! Templates_str template = Some (Some template_fmt)
      ∧ _validate_format_string template_fmt (tokens_of template) = Returns
      ∧ store !! template
        = Some {| template := template_fmt;
                  allowed_tokens := tokens_of template |}.
Proof.
  intros H template.
  destruct (store_init_loop_inr settings TEMPLATES ∅ store TEMPLATES_keys H
              template) as [Hin _].
  apply Hin, TEMPLATES_entry.
Qed.

(** X18: building the store succeeds exactly when the settings hold, for
    every member of [Templates], a format string that validation accepts
    with the tokens [TEMPLATES] allows for it; the store then holds, under
    every member, a formatter with that format string and those tokens. *)
Theorem new_store_succeeds (settings : gmap str (option str)) :
  ((∃ store, new_store settings = inr store)
   ↔ ∀ template,
       ∃ template_fmt,
         settings !! Templates_str template = Some (Some template_fmt)
         ∧ _validate_format_string template_fmt (tokens_of template) = Returns)
  ∧ ∀ store,
      new_store settings = inr store →
      ∀ template,
        ∃ template_fmt,
          settings !! Templates_str template = Some (Some template_fmt)
          ∧ store !! template
            = Some {| template := template_fmt;
                      allowed_tokens := tokens_of template |}.
Proof.
  split; [split |].
  - intros [store H] template.
    destruct (new_store_content settings store H template)
      as (fmt & ? & ? & _).
    eauto.
  - intros Hall. apply store_init_loop_succeeds.
    intros template tokens Hin.
    assert (tokens = tokens_of template) as ->.
    { pose proof (TEMPLATES_entry template) as Hentry.
      by apply (unique_entry _ _ _ _ TEMPLATES_keys Hin Hentry). }
    apply Hall.
  - intros store H template.
    destruct (new_store_content settings store H template)
      as (fmt & ? & _ & ?).
    eauto.
Qed.

Lemma example_settings_valid (template : Templates) :
  ∃ template_fmt,
    example_settings !! Templates_str template = Some (Some template_fmt)
    ∧ _validate_format_string template_fmt (tokens_of template) = Returns.
Proof. destruct template; eexists; split; reflexivity. Qed.

Lemma new_store_succeeds_witness :
  ∃ store,
    new_store example_settings = inr store
    ∧ ∃ template_fmt,
        example_settings !! Templates_str PROMPT = Some (Some template_fmt)
        ∧ store !! PROMPT
          = Some {| template := template_fmt;
                    allowed_tokens := tokens_of PROMPT |}.
Proof.
  destruct (proj2 (proj1 (new_store_succeeds example_settings))
              example_settings_valid) as [store Hstore].
  exists store. split; [exact Hstore |].
  exact (proj2 (new_store_succeeds example_settings) store Hstore PROMPT).
Defined.

(** X19: in a store that was built, the format string configured for a
    template is written from characters other than braces and from tokens
    [TEMPLATES] allows in it, in braces; and [TemplateStore.format] on that
    template, given a value for each allowed token, never raises: it returns
    the characters copied and each token in braces replaced by its value. *)
Theorem store_format_succeeds (settings : gmap str (option str))
    (store : TemplateStore) (template : Templates) :
  new_store settings = inr store →
  ∃ template_fmt pieces,
    settings !! Templates_str template = Some (Some template_fmt)
    ∧ template_fmt = concat (written <$> pieces)
    ∧ Forall (piece_allowed (tokens_of template)) pieces
    ∧ ∀ format_args,
        (∀ t, t ∈ tokens_of template → is_Some (format_args !! value t)) →
        store_format store template format_args
        = Some (concat (filled format_args <$> pieces)).
Proof.
  intros Hstore.
  destruct (new_store_content settings store Hstore template)
    as (fmt & Hsetting & Hvalid & Hlookup).
  apply validate_returns in Hvalid.
  destruct (braces_allowed_pieces _ _ Hvalid (length fmt) 0)
    as (pieces & Hdrop & Hpieces); [lia | intros i t _ Hi; lia |].
  rewrite drop_0 in Hdrop. exists fmt, pieces.
  split_and!; [done | done | done |].
  intros format_args Hargs.
  unfold store_format. rewrite Hlookup. cbn [mbind option_bind].
  unfold format. simpl. rewrite Hdrop.
  by eapply str_format_pieces.
Qed.

Lemma store_format_succeeds_witness :
  ∃ store template_fmt pieces,
    example_settings !! Templates_str PROMPT_HISTORY_LINE
    = Some (Some template_fmt)
    ∧ template_fmt = concat (written <$> pieces)
    ∧ Forall (piece_allowed (tokens_of PROMPT_HISTORY_LINE)) pieces
    ∧ ∀ format_args : gmap str str,
        (∀ t, t ∈ tokens_of PROMPT_HISTORY_LINE →
              is_Some (format_args !! value t)) →
        store_format store PROMPT_HISTORY_LINE format_args
        = Some (concat (filled format_args <$> pieces)).
Proof.
  destruct (store_init_loop_succeeds example_settings TEMPLATES ∅)
    as [store Hstore].
  { intros template tokens Hin.
    assert (tokens = tokens_of template) as ->
      by (by apply (unique_entry _ _ _ _ TEMPLATES_keys Hin
                      (TEMPLATES_entry template))).
    apply example_settings_valid. }
  exists store.
  exact (store_format_succeeds example_settings store PROMPT_HISTORY_LINE
           Hstore).
Defined.

Example store_format_history_line :
  (store ← match new_store example_settings with
           | inr store => Some store
           | inl _ => None
           end;
   store_format store PROMPT_HISTORY_LINE
     {[ lit "USER_NAME" := lit "Bob"; lit "USER_MESSAGE" := lit "hello" ]})
  = Some (lit "Bob: hello").
Proof. reflexivity. Qed.

Lemma store_init_loop_inl (settings : gmap str (option str)) :
  ∀ items self e,
    store_init_loop settings items self = inl e →
    ∃ template tokens,
      (template, tokens) ∈ items
      ∧ match e with
        | KeyError => settings !! Templates_str template = None
        | ValueError =>
            settings !! Templates_str template = Some None
            ∨ ∃ template_fmt,
                settings !! Templates_str template = Some (Some template_fmt)
                ∧ _validate_format_string template_fmt tokens
                  = RaisesValueError
        end.
Proof.
  induction items as [|[t0 tokens0] items IH]; intros self e H; [done |].
  cbn [store_init_loop] in H.
  destruct (settings !! Templates_str t0) as [[fmt0|]|] eqn:Hsetting.
  - unfold add_template, new_formatter in H.
    destruct (_validate_format_string fmt0 tokens0) eqn:Hvalid.
    + cbn [mbind option_bind] in H.
      destruct (IH _ _ H) as (template & tokens & Hin & He).
      exists template, tokens. split; [by right | done].
    + cbn [mbind option_bind] in H. simplify_eq.
      exists t0, tokens0. split; [by left |]. right. by exists fmt0.
  - simplify_eq. exists t0, tokens0. split; [by left |]. by left.
  - simplify_eq. exists t0, tokens0. split; [by left | done].
Qed.

(** X20: when building the store raises [KeyError], the settings lack the
    name of some template; when it raises [ValueError], some template has
    [None] for its setting or a format string that validation rejects. *)
Theorem new_store_raises (settings : gmap str (option str)) :
  (new_store settings = inl KeyError →
   ∃ template, settings !! Templates_str template = None)
  ∧ (new_store settings = inl ValueError →
     ∃ template,
       settings !! Templates_str template = Some None
       ∨ ∃ template_fmt,
           settings !! Templates_str template = Some (Some template_fmt)
           ∧ _validate_format_string template_fmt (tokens_of template)
             = RaisesValueError).
Proof.
  split; intros H;
    apply store_init_loop_inl in H as (template & tokens & Hin & He);
    exists template; [done |].
  assert (tokens = tokens_of template) as <-; [| done].
  by apply (unique_entry _ _ _ _ TEMPLATES_keys Hin (TEMPLATES_entry template)).
Qed.

Lemma new_store_raises_witness :
  (∃ template, (∅ : gmap str (option str)) !! Templates_str template = None)
  ∧ ∃ template,
      (<[ lit "command_lobotomize_response" := Some (lit "Hi {PERSONA}") ]>
         example_settings) !! Templates_str template = Some None
      ∨ ∃ template_fmt,
          (<[ lit "command_lobotomize_response" := Some (lit "Hi {PERSONA}") ]>
             example_settings) !! Templates_str template
          = Some (Some template_fmt)
          ∧ _validate_format_string template_fmt (tokens_of template)
            = RaisesValueError.
Proof.
  split.
  - refine (proj1 (new_store_raises ∅) _). reflexivity.
  - refine (proj2 (new_store_raises
                     (<[ lit "command_lobotomize_response"
                         := Some (lit "Hi {PERSONA}") ]> example_settings)) _).
    reflexivity.
Defined.
